(** * The PDF text-cleaning pipeline of [clean_text.py]

    A shallow embedding of the cleaning module and the properties its
    specification states about it.

    Python strings are sequences of Unicode code points; the module works on
    them through [re], [str.split], [str.splitlines], [str.strip] and
    [str.join].  Texts are lists of code points here, the regular expressions
    of the module are terms of a small regex syntax run by a backtracking
    matcher with [re]'s priorities (leftmost, greedy before lazy, first
    alternative first), and the operations that can raise return a [result]. *)

From Stdlib Require Import String Ascii DecimalString List NArith ZArith QArith Bool Lia Arith.
Import ListNotations.

Close Scope Q_scope.

(** ** Characters and strings *)

Definition char := N.
Bind Scope N_scope with char.
Definition str := list char.

(** An ASCII literal of the source as a list of code points. *)
Definition py (s : string) : str := map N_of_ascii (list_ascii_of_string s).

Definition NL : char := 10%N.
Definition TAB : char := 9%N.
Definition SP : char := 32%N.

(** U+00A0, the no-break space. *)
Definition NBSP : char := 160%N.

Definition str_eqb (a b : str) : bool :=
  if list_eq_dec N.eq_dec a b then true else false.

Definition in_range (lo hi c : char) : bool := ((lo <=? c) && (c <=? hi))%N.

Definition one_of (cs : str) (c : char) : bool := existsb (N.eqb c) cs.

(** White space as [str.isspace], [str.strip] and the class [\s] see it
    (CPython's [Py_UNICODE_ISSPACE]): the table is small and is given whole. *)
Definition is_space (c : char) : bool :=
  (in_range 9 13 c || in_range 28 32 c
   || one_of [133; 160; 5760; 8232; 8233; 8239; 8287; 12288] c
   || in_range 8192 8202 c)%N.

(** The Unicode tables behind [\d], [\w] and IGNORECASE belong to the Python
    runtime, not to the module: they are parameters of the development. *)
Class UnicodeDB := {
  uni_isdecimal : char -> bool;   (* \d : category Nd *)
  uni_isalnum : char -> bool;     (* alphanumeric, as \w needs it *)
  uni_tolower : char -> char      (* simple lower-case mapping *)
}.

(** The tables on U+0000..U+00FF; a code point above is taken as a caseless
    symbol.  Used only to run the definitions on concrete inputs of that
    range. *)
Definition latin1_isalnum (c : char) : bool :=
  (in_range 48 57 c || in_range 65 90 c || in_range 97 122 c
   || one_of [170; 178; 179; 181; 185; 186; 188; 189; 190] c
   || in_range 192 214 c || in_range 216 246 c || in_range 248 255 c)%N.

Definition latin1_tolower (c : char) : char :=
  (if in_range 65 90 c || (in_range 192 222 c && negb (c =? 215))
   then c + 32 else c)%N.

Definition latin1 : UnicodeDB :=
  {| uni_isdecimal := in_range 48%N 57%N;
     uni_isalnum := latin1_isalnum;
     uni_tolower := latin1_tolower |}.

(** ** Exceptions *)

Inductive exn :=
| ZeroDivisionError
| IndexError
| FileDataError        (* fitz.open on a file that is no readable document *)
| PDFPageCountError    (* pdf2image.convert_from_path *)
| TesseractError.      (* pytesseract.image_to_string *)

Inductive result (A : Type) :=
| Ok (a : A)
| Raise (e : exn).
Arguments Ok {A} a.
Arguments Raise {A} e.

Definition bind {A B} (r : result A) (f : A -> result B) : result B :=
  match r with
  | Ok a => f a
  | Raise e => Raise e
  end.

Notation "x <- r ;; k" := (bind r (fun x => k))
  (at level 61, r at next level, right associativity).

(** ** Regular expressions *)

Inductive regex :=
| Eps
| Cls (p : char -> bool)        (* one character of a class *)
| Seq (a b : regex)
| Alt (a b : regex)             (* a|b, a tried first *)
| Star (a : regex)              (* a*, greedy *)
| LazyStar (a : regex)          (* a*?, lazy *)
| WordB                         (* \b *)
| Bol (multiline : bool)        (* ^ *)
| Eol (multiline : bool).       (* $ *)

(** A matcher state is the character before the cursor (none at the start of
    the text) and the text from the cursor on.  A continuation receives the
    state reached and answers with the text left after the whole match. *)
Definition cont := option char -> str -> option str.

Definition or_else (x y : option str) : option str :=
  match x with
  | Some r => Some r
  | None => y
  end.

(** The loops of [a*] and [a*?]: an iteration counts only if it consumes
    text, so [length s] iterations are all there can be. *)
Fixpoint star_loop (body : cont -> cont) (k : cont) (n : nat)
    (b : option char) (s : str) : option str :=
  match n with
  | O => k b s
  | S n' =>
      or_else
        (body (fun b' t =>
                 if (length t <? length s)%nat then star_loop body k n' b' t
                 else None) b s)
        (k b s)
  end.

Fixpoint lazy_loop (body : cont -> cont) (k : cont) (n : nat)
    (b : option char) (s : str) : option str :=
  match n with
  | O => k b s
  | S n' =>
      or_else
        (k b s)
        (body (fun b' t =>
                 if (length t <? length s)%nat then lazy_loop body k n' b' t
                 else None) b s)
  end.

Section Regex.
Context {U : UnicodeDB}.

Definition is_digit (c : char) : bool := uni_isdecimal c.

(** [\w]: alphanumeric or underscore. *)
Definition is_word (c : char) : bool := uni_isalnum c || (c =? 95)%N.

Definition word_before (b : option char) : bool :=
  match b with
  | Some c => is_word c
  | None => false
  end.

Definition word_after (s : str) : bool :=
  match s with
  | c :: _ => is_word c
  | [] => false
  end.

Definition at_boundary (b : option char) (s : str) : bool :=
  xorb (word_before b) (word_after s).

Definition at_bol (multiline : bool) (b : option char) : bool :=
  match b with
  | None => true
  | Some c => multiline && (c =? NL)%N
  end.

Definition at_eol (multiline : bool) (s : str) : bool :=
  match s with
  | [] => true
  | c :: t => (c =? NL)%N && (multiline || match t with [] => true | _ => false end)
  end.

Fixpoint m (r : regex) (k : cont) (b : option char) (s : str) {struct r}
    : option str :=
  match r with
  | Eps => k b s
  | Cls p =>
      match s with
      | c :: t => if p c then k (Some c) t else None
      | [] => None
      end
  | Seq r1 r2 => m r1 (m r2 k) b s
  | Alt r1 r2 => or_else (m r1 k b s) (m r2 k b s)
  | Star r1 => star_loop (m r1) k (length s) b s
  | LazyStar r1 => lazy_loop (m r1) k (length s) b s
  | WordB => if at_boundary b s then k b s else None
  | Bol ml => if at_bol ml b then k b s else None
  | Eol ml => if at_eol ml s then k b s else None
  end.

(** A match of [r] at the cursor: the number of characters it spans. *)
Definition match_at (r : regex) (b : option char) (s : str) : option nat :=
  match m r (fun _ t => Some t) b s with
  | Some t => Some (length s - length t)%nat
  | None => None
  end.

(** The scan shared by [re.sub], [re.findall] and [re.search]: from left to
    right, the text cut into the matches found and the characters between
    them.  [skip] counts the characters of the current match still to pass.
    An empty match is reported and the scan moves on by one character. *)
Inductive piece :=
| Lit (c : char)
| Hit (matched : str).

Fixpoint scan (r : regex) (skip : nat) (b : option char) (s : str)
    : list piece :=
  match skip with
  | S n =>
      match s with
      | [] => []
      | c :: t => scan r n (Some c) t
      end
  | O =>
      match match_at r b s with
      | Some len =>
          match len, s with
          | O, [] => [Hit []]
          | O, c :: t => Hit [] :: Lit c :: scan r 0 (Some c) t
          | S n, c :: t => Hit (firstn len s) :: scan r n (Some c) t
          | S _, [] => [Hit []]
          end
      | None =>
          match s with
          | [] => []
          | c :: t => Lit c :: scan r 0 (Some c) t
          end
      end
  end.

Definition emit (repl : str) (p : piece) : str :=
  match p with
  | Lit c => [c]
  | Hit _ => repl
  end.

Definition hit (p : piece) : list str :=
  match p with
  | Lit _ => []
  | Hit x => [x]
  end.

(** The substitution from a cursor on. *)
Definition sub_from (r : regex) (repl : str) (b : option char) (s : str) : str :=
  flat_map (emit repl) (scan r 0 b s).

(** [re.sub(r, repl, text)] for a replacement without group references. *)
Definition re_sub (r : regex) (repl : str) (text : str) : str :=
  sub_from r repl None text.

(** [re.findall(r, text)] for a pattern without groups. *)
Definition re_findall (r : regex) (text : str) : list str :=
  flat_map hit (scan r 0 None text).

(** [re.search(r, text)]: the start of the leftmost match. *)
Fixpoint search_from (r : regex) (pos : nat) (b : option char) (s : str)
    : option nat :=
  match match_at r b s with
  | Some _ => Some pos
  | None =>
      match s with
      | [] => None
      | c :: t => search_from r (S pos) (Some c) t
      end
  end.

Definition re_search (r : regex) (text : str) : option nat :=
  search_from r 0 None text.

(** [re.match(r, text)] as a truth value. *)
Definition re_match (r : regex) (text : str) : bool :=
  match match_at r None text with
  | Some _ => true
  | None => false
  end.

(** *** Pattern syntax *)

Definition chr (c : char) : regex := Cls (N.eqb c).
Definition any : regex := Cls (fun _ => true).             (* . with DOTALL *)
Definition dot : regex := Cls (fun c => negb (c =? NL)%N). (* . *)
Definition plus (r : regex) : regex := Seq r (Star r).
Definition opt (r : regex) : regex := Alt r Eps.

Fixpoint rep (n : nat) (r : regex) : regex :=
  match n with
  | O => Eps
  | S n' => Seq r (rep n' r)
  end.

(** [r{n,}] *)
Definition at_least (n : nat) (r : regex) : regex := Seq (rep n r) (Star r).

Fixpoint seqs (rs : list regex) : regex :=
  match rs with
  | [] => Eps
  | [r] => r
  | r :: rs' => Seq r (seqs rs')
  end.

(** A literal, character by character. *)
Definition lit (s : string) : regex := seqs (map chr (py s)).

(** A literal character under IGNORECASE.  The pattern characters of the
    module are ASCII: a letter is matched through the lower-case mapping
    (with the two extra equivalents [sre] knows for i and s), anything else
    as itself. *)
Definition ascii_letter (c : char) : bool := in_range 65 90 c || in_range 97 122 c.
Definition ascii_lower (c : char) : char := (if in_range 65 90 c then c + 32 else c)%N.

Definition case_fixes (lo : char) : list char :=
  if (lo =? 105)%N then [305%N]        (* i, dotless i *)
  else if (lo =? 115)%N then [383%N]   (* s, long s *)
  else [].

Definition ieq (c x : char) : bool :=
  if ascii_letter c
  then one_of (ascii_lower c :: case_fixes (ascii_lower c)) (uni_tolower x)
  else (c =? x)%N.

Definition ichr (c : char) : regex := Cls (ieq c).
Definition ilit (s : string) : regex := seqs (map ichr (py s)).

Definition d : regex := Cls is_digit.                       (* \d *)
Definition w : regex := Cls is_word.                        (* \w *)
Definition s_ : regex := Cls is_space.                      (* \s *)
Definition S_ : regex := Cls (fun c => negb (is_space c)).  (* \S *)

End Regex.

(** ** String operations of Python *)

Definition ch (a : ascii) : char := N_of_ascii a.

(** [text.split(sep)] for a one-character separator. *)
Fixpoint split (sep : char) (text : str) : list str :=
  match text with
  | [] => [[]]
  | c :: t =>
      if (c =? sep)%N then [] :: split sep t
      else match split sep t with
           | l :: ls => (c :: l) :: ls
           | [] => [[c]]
           end
  end.

(** [sep.join(parts)] *)
Fixpoint join (sep : str) (parts : list str) : str :=
  match parts with
  | [] => []
  | [p] => p
  | p :: ps => p ++ sep ++ join sep ps
  end.

(** The line boundaries of [str.splitlines]. *)
Definition CR : char := 13%N.

Definition is_linebreak (c : char) : bool :=
  (in_range 10 13 c || in_range 28 30 c || one_of [133; 8232; 8233] c)%N.

(** [text.splitlines()]: a boundary ends a line, CR LF is one boundary, and
    no empty line follows the last boundary. *)
Fixpoint splitlines (text : str) : list str :=
  match text with
  | [] => []
  | c :: t =>
      if is_linebreak c then
        [] :: match t with
              | c2 :: t2 => if (c =? CR)%N && (c2 =? NL)%N then splitlines t2
                            else splitlines t
              | [] => splitlines t
              end
      else match splitlines t with
           | l :: ls => (c :: l) :: ls
           | [] => [[c]]
           end
  end.

Fixpoint lstrip (text : str) : str :=
  match text with
  | c :: t => if is_space c then lstrip t else text
  | [] => []
  end.

Definition rstrip (text : str) : str := rev (lstrip (rev text)).

(** [text.strip()] *)
Definition strip (text : str) : str := rstrip (lstrip text).

(** [text.count(c)] *)
Definition count (c : char) (text : str) : nat := length (filter (N.eqb c) text).

(** [text.endswith(suffix)] *)
Fixpoint startswith (prefix text : str) : bool :=
  match prefix, text with
  | [], _ => true
  | p :: ps, c :: t => (p =? c)%N && startswith ps t
  | _ :: _, [] => false
  end.

Definition endswith (suffix text : str) : bool := startswith (rev suffix) (rev text).

(** Truth of a string: it is not empty. *)
Definition truthy (text : str) : bool :=
  match text with
  | [] => false
  | _ :: _ => true
  end.

(** Float division, exact on the rationals; it raises on a zero divisor. *)
Definition py_div (a b : Q) : result Q :=
  if Qeq_bool b 0 then Raise ZeroDivisionError else Ok (a / b)%Q.

Definition Qgt_bool (a b : Q) : bool := negb (Qle_bool a b).

Definition Qlen {A} (l : list A) : Q := inject_Z (Z.of_nat (length l)).

(** ** The cleaning module *)

Section Cleaning.
Context {U : UnicodeDB}.

(** [\babstract\b], IGNORECASE *)
Definition abstract_re : regex := seqs [WordB; ilit "abstract"; WordB].

(** [\b(NUM)?introduction\b] with NUM = [1\.\s*], IGNORECASE *)
Definition introduction_re : regex :=
  seqs [WordB; opt (seqs [ilit "1."; Star s_]); ilit "introduction"; WordB].

Definition find_main_start (text : str) : str :=
  match re_search abstract_re text with
  | Some start => skipn start text
  | None =>
      match re_search introduction_re text with
      | Some start => skipn start text
      | None => skipn 1000 text
      end
  end.

(** [[\d.±%]] *)
Definition numeric_char (c : char) : bool :=
  is_digit c || one_of [ch "."; 177%N; ch "%"] c.

(** [^\s*[\d.,]+(\s+[\d.,%±]+)*\s*$] *)
Definition numeric_line_re : regex :=
  seqs [Bol false; Star s_;
        plus (Cls (fun c => is_digit c || one_of [ch "."; ch ","] c));
        Star (seqs [plus s_;
                    plus (Cls (fun c => is_digit c
                                        || one_of [ch "."; ch ","; ch "%"; 177%N] c))]);
        Star s_; Eol false].

Definition numeric_like (line : str) : result bool :=
  digit_ratio <- py_div (Qlen (re_findall (Cls numeric_char) line))
                        (Qlen line + (1 # 1000000))%Q ;;
  Ok (Qgt_bool digit_ratio (1 # 2) || re_match numeric_line_re line).

Fixpoint numeric_loop (lines : list str) (cleaned : list str) (numeric_run : nat)
    : result (list str) :=
  match lines with
  | [] => Ok cleaned
  | line :: rest =>
      nl <- numeric_like line ;;
      let numeric_run := if nl then S numeric_run else O in
      if (3 <=? numeric_run)%nat then numeric_loop rest cleaned numeric_run
      else if (numeric_run =? 0)%nat
           then numeric_loop rest (cleaned ++ [line]) numeric_run
           else numeric_loop rest cleaned numeric_run
  end.

Definition remove_numeric_blocks (text : str) : result str :=
  cleaned <- numeric_loop (split NL text) [] 0 ;;
  Ok (join [NL] cleaned).

(** [\s{3,}] *)
Definition tabular_re : regex := at_least 3 s_.

Fixpoint tabular_loop (lines : list str) (cleaned : list str) : list str :=
  match lines with
  | [] => cleaned
  | line :: rest =>
      if (1 <=? length (re_findall tabular_re line))%nat
         || (2 <=? count TAB line)%nat
      then tabular_loop rest cleaned
      else tabular_loop rest (cleaned ++ [line])
  end.

Definition remove_tabular_blocks (text : str) : str :=
  join [NL] (tabular_loop (split NL text) []).

(** [\bPage \d+(\s+of \d+)?\b], IGNORECASE *)
Definition page_re : regex :=
  seqs [WordB; ilit "Page "; plus d;
        opt (seqs [plus s_; ilit "of "; plus d]); WordB].

(** [<phrase>.*?\n] *)
Definition line_from (phrase : regex) : regex :=
  seqs [phrase; LazyStar dot; chr NL].

(** [^[\s\.\-—_]{3,}$], MULTILINE *)
Definition rule_re : regex :=
  seqs [Bol true;
        at_least 3 (Cls (fun c => is_space c
                                  || one_of [ch "."; ch "-"; 8212%N; ch "_"] c));
        Eol true].

Definition remove_headers_footers (text : str) : str :=
  let text := re_sub page_re [] text in
  let text := re_sub (lit "NIH-PA Author Manuscript") [] text in
  let text := re_sub (line_from (lit "Author manuscript; available in PMC")) [] text in
  let text := re_sub (line_from (lit "J Autism Dev Disord")) [] text in
  let text := re_sub (line_from (ilit "bioRxiv")) [] text in
  let text := re_sub (line_from (ilit "medRxiv")) [] text in
  let text := re_sub (line_from (ilit "Scientific Reports")) [] text in
  let text := re_sub (line_from (ilit "Copyright")) [] text in
  let text := re_sub (line_from (ilit "All rights reserved")) [] text in
  re_sub rule_re [] text.

(** [(?i)\b(references|acknowledgements|appendix)\b.*], DOTALL *)
Definition trailing_re : regex :=
  seqs [WordB;
        Alt (ilit "references") (Alt (ilit "acknowledgements") (ilit "appendix"));
        WordB; Star any].

(** [[\w\-]] *)
Definition name_char (c : char) : bool := is_word c || (c =? ch "-")%N.

(** [\[\s*[\w\-]+ et al\., \d{4}(;\s*[\w\-]+ et al\., \d{4})*\s*\]] *)
Definition bracket_citation_re : regex :=
  seqs [chr (ch "["); Star s_; plus (Cls name_char); lit " et al., "; rep 4 d;
        Star (seqs [chr (ch ";"); Star s_; plus (Cls name_char);
                    lit " et al., "; rep 4 d]);
        Star s_; chr (ch "]")].

(** [\b\w+ et al\.,? \d{4}\b] *)
Definition bare_citation_re : regex :=
  seqs [WordB; plus w; lit " et al."; opt (chr (ch ",")); chr SP; rep 4 d; WordB].

(** [\b[A-Z][a-z]+ et al\.\b] *)
Definition lone_et_al_re : regex :=
  seqs [WordB; Cls (in_range (ch "A") (ch "Z"));
        plus (Cls (in_range (ch "a") (ch "z"))); lit " et al."; WordB].

(** [http\S+|www\.\S+|doi:\S+] *)
Definition url_re : regex :=
  Alt (seqs [lit "http"; plus S_])
      (Alt (seqs [lit "www."; plus S_]) (seqs [lit "doi:"; plus S_])).

(** [\S+@\S+] *)
Definition email_re : regex := seqs [plus S_; chr (ch "@"); plus S_].

(** [(Table|Figure|Fig\.)\s*\d+.*] *)
Definition caption_re : regex :=
  seqs [Alt (lit "Table") (Alt (lit "Figure") (lit "Fig."));
        Star s_; plus d; Star dot].

(** The loop that collapses duplicate lines. *)
Fixpoint dedup_loop (lines : list str) (deduped : list str) (prev : str)
    : list str :=
  match lines with
  | [] => deduped
  | line :: rest =>
      if negb (str_eqb (strip line) (strip prev))
      then dedup_loop rest (deduped ++ [line]) line
      else dedup_loop rest deduped line
  end.

(** [\n{3,}] and [[ \t]{2,}] *)
Definition newlines_re : regex := at_least 3 (chr NL).
Definition is_blank (c : char) : bool := one_of [SP; TAB] c.
Definition blanks_re : regex := at_least 2 (Cls is_blank).

(** Lines 126-130 of [clean_text]: the final white-space clean-up. *)
Definition clean_whitespace (text : str) : str :=
  let text := re_sub newlines_re [NL; NL] text in
  let text := re_sub blanks_re [SP] text in
  strip text.

(** Lines 95-130 of [clean_text]: every filter after the two prunings. *)
Definition noise_filters (text : str) : result str :=
  let text := re_sub bracket_citation_re [] text in
  let text := re_sub bare_citation_re [] text in
  let text := re_sub lone_et_al_re [] text in
  let text := re_sub url_re [] text in
  let text := re_sub email_re [] text in
  let text := re_sub caption_re [] text in
  text <- remove_numeric_blocks text ;;
  let text := remove_tabular_blocks text in
  let text := remove_headers_footers text in
  let lines := splitlines text in
  let deduped := dedup_loop lines [] [] in
  let text := join [NL] deduped in
  Ok (clean_whitespace text).

Definition clean_text (text : str) : result str :=
  let text := find_main_start text in
  let text := re_sub trailing_re [] text in
  noise_filters text.

End Cleaning.

(** ** Documents and the batch *)

(** What the collaborators answer for a file: [fitz.open] and the text of
    each page, [convert_from_path] and what [image_to_string] reads from each
    page image.  A file that opens is taken to give the text of every page:
    a document whose pages cannot be read once it is open (an encrypted
    one) is outside this record. *)
Record pdf := {
  pages : result (list str);
  images : result (list (result str))
}.

(** The writes performed, oldest first, each with its path and its text.  On
    disk a later write to a path replaces what an earlier one left there. *)
Definition file_system := list (str * str).

(** A computation that writes files and may raise. *)
Definition prog (A : Type) := file_system -> file_system * result A.

Definition ret {A} (a : A) : prog A := fun fs => (fs, Ok a).

Definition lift {A} (r : result A) : prog A := fun fs => (fs, r).

Definition bind_prog {A B} (p : prog A) (f : A -> prog B) : prog B :=
  fun fs =>
    match p fs with
    | (fs', Ok a) => f a fs'
    | (fs', Raise e) => (fs', Raise e)
    end.

Notation "x <~ p ;; k" := (bind_prog p (fun x => k))
  (at level 61, p at next level, right associativity).

(** [open(path, "w").write(text)], after [os.makedirs], as one more write.
    The disk is taken to accept every directory and every write: the
    [OSError] of a refused one is outside the model. *)
Definition write_file (path text : str) : prog unit :=
  fun fs => (fs ++ [(path, text)], Ok tt).

(** [doc[i]] *)
Definition index {A} (l : list A) (i : nat) : result A :=
  match nth_error l i with
  | Some a => Ok a
  | None => Raise IndexError
  end.

(** [range(n)] *)
Definition range (n : Z) : list nat := seq 0 (Z.to_nat n).

Definition Zlen {A} (l : list A) : Z := Z.of_nat (length l).

(** [os.path.join(a, b)]: an absolute [b] stands alone, and a separator is
    put in only after a directory that is not empty and does not end with
    one. *)
Definition path_join (a b : str) : str :=
  if startswith (py "/") b then b
  else if truthy a && negb (endswith (py "/") a) then a ++ py "/" ++ b
       else a ++ b.

(** [os.path.basename(path)] *)
Definition basename (path : str) : str := last (split (ch "/") path) [].

(** [os.path.splitext(name)[0]] for a name without separator: the part
    before the last dot, unless only dots come before it. *)
Fixpoint before_last_dot (reversed : str) : option str :=
  match reversed with
  | [] => None
  | c :: t => if (c =? ch ".")%N then Some t else before_last_dot t
  end.

Definition splitext_root (name : str) : str :=
  match before_last_dot (rev name) with
  | Some root =>
      if existsb (fun c => negb (c =? ch ".")%N) root then rev root else name
  | None => name
  end.

(** [str(n)] *)
Definition str_of_nat (n : nat) : str := py (NilEmpty.string_of_uint (Nat.to_uint n)).

Section Batch.
Context {U : UnicodeDB}.

Fixpoint image_based_loop (doc : list str) (idxs : list nat) : result bool :=
  match idxs with
  | [] => Ok true
  | i :: rest =>
      text <- index doc i ;;
      if truthy (strip text) then Ok false else image_based_loop doc rest
  end.

(** [is_image_based_pdf] once the document is open. *)
Definition is_image_based_doc (doc : list str) (check_pages : Z) : result bool :=
  image_based_loop doc (range (Z.min (Zlen doc) check_pages)).

Definition is_image_based_pdf (f : pdf) (check_pages : Z) : result bool :=
  doc <- pages f ;;
  is_image_based_doc doc check_pages.

Fixpoint ocr_loop (imgs : list (result str)) (i : nat) (full_text : str)
    : result str :=
  match imgs with
  | [] => Ok full_text
  | image :: rest =>
      page_text <- image ;;
      ocr_loop rest (S i)
        (full_text
         ++ ([NL; NL] ++ py "--- Page " ++ str_of_nat (i + 1) ++ py " ---" ++ [NL; NL])
         ++ page_text)
  end.

Definition ocr_pdf (f : pdf) : result str :=
  imgs <- images f ;;
  ocr_loop imgs 0 [].

Fixpoint page_loop (doc : list str) (text_chunks : list str) : list str :=
  match doc with
  | [] => text_chunks
  | page :: rest => page_loop rest (text_chunks ++ [page])
  end.

(** The text [extract_clean_text_from_pdf] hands to [clean_text]. *)
Definition full_text_of (doc : list str) : str := join [NL] (page_loop doc []).

Definition extract_clean_text_from_pdf (f : pdf) : result str :=
  doc <- pages f ;;
  clean_text (full_text_of doc).

Definition save_clean_text_to_file (text output_path : str) : prog unit :=
  write_file output_path text.

Definition cleaned_name (pdf_path : str) : str :=
  splitext_root (basename pdf_path) ++ py "_cleaned.txt".

Definition process_pdf (pdf_path : str) (f : pdf) (output_dir : str) : prog unit :=
  cleaned <~ lift (extract_clean_text_from_pdf f) ;;
  save_clean_text_to_file cleaned (path_join output_dir (cleaned_name pdf_path)).

Definition process_ocr_pdf (pdf_path : str) (f : pdf) (output_dir : str) : prog unit :=
  raw <~ lift (ocr_pdf f) ;;
  cleaned <~ lift (clean_text raw) ;;
  write_file (path_join output_dir (cleaned_name pdf_path)) cleaned.

(** The body of the loop of [__main__] for one directory entry. *)
Definition process_entry (pdf_file : str) (f : pdf) : prog unit :=
  let output_dir := py "cleaned_texts" in
  if endswith (py ".pdf") pdf_file then
    let pdf_path := path_join (py "papers") pdf_file in
    image_based <~ lift (is_image_based_pdf f 3) ;;
    if image_based : bool then process_ocr_pdf pdf_path f output_dir
    else process_pdf pdf_path f output_dir
  else ret tt.

(** [__main__] over the listing of [papers/]. *)
Fixpoint main (listing : list (str * pdf)) : prog unit :=
  match listing with
  | [] => ret tt
  | (pdf_file, f) :: rest =>
      _ <~ process_entry pdf_file f ;;
      main rest
  end.

End Batch.

(** ** Notions the properties are stated with *)

(** The number of leading characters of [s] in the class [p]. *)
Fixpoint lead (p : char -> bool) (s : str) : nat :=
  match s with
  | c :: t => if p c then S (lead p t) else O
  | [] => O
  end.

(** Every run of [p]-characters in [s] is shorter than [n]. *)
Definition runs_below (p : char -> bool) (n : nat) (s : str) : Prop :=
  forall l1 l2, s = l1 ++ l2 -> (lead p l2 < n)%nat.

(** The cursor after the characters of [l]. *)
Definition adv (b : option char) (l : str) : option char :=
  fold_left (fun _ c => Some c) l b.

(** What replacing every run of at least [n] characters of [p] by [repl]
    comes to, read off the text in one pass; [dropping] holds inside a run
    that is being replaced. *)
Fixpoint collapse (p : char -> bool) (n : nat) (repl : str) (dropping : bool)
    (s : str) : str :=
  match s with
  | [] => []
  | c :: t =>
      if p c then
        if dropping then collapse p n repl true t
        else if (n <=? lead p s)%nat then repl ++ collapse p n repl true t
             else c :: collapse p n repl false t
      else c :: collapse p n repl false t
  end.

(** The last continuation of a match: the text left is the answer. *)
Definition fin : cont := fun _ t => Some t.

(** [a*] over a class, by recursion on the text. *)
Fixpoint star_cls (p : char -> bool) (k : cont) (b : option char) (s : str)
    : option str :=
  match s with
  | c :: t => if p c then or_else (star_cls p k (Some c) t) (k b s) else k b s
  | [] => k b s
  end.

Definition is_nl (c : char) : bool := (NL =? c)%N.

(** The number of newlines in the white space a text begins with. *)
Fixpoint nl_lead (s : str) : nat :=
  match s with
  | c :: t => if is_space c then ((if is_nl c then 1 else 0) + nl_lead t)%nat else O
  | [] => O
  end.

(** Every stretch of white space in [s] holds fewer than [n] newlines. *)
Definition gaps_below (n : nat) (s : str) : Prop :=
  forall l1 l2, s = l1 ++ l2 -> (nl_lead l2 < n)%nat.

(** A blank line: empty or made of white space only. *)
Definition blank_line (line : str) : bool := negb (truthy (strip line)).

Definition nl_free (line : str) : bool := forallb (fun c => negb (is_nl c)) line.

(** No two blank lines follow each other ([prev_blank]: the line before the
    first one is blank). *)
Fixpoint no_blank_pair (prev_blank : bool) (lines : list str) : bool :=
  match lines with
  | [] => true
  | l :: rest => negb (prev_blank && blank_line l) && no_blank_pair (blank_line l) rest
  end.

(** The lines [dedup_loop] appends. *)
Fixpoint dedup (prev : str) (lines : list str) : list str :=
  match lines with
  | [] => []
  | line :: rest =>
      if negb (str_eqb (strip line) (strip prev)) then line :: dedup line rest
      else dedup line rest
  end.

(** A text begins with one character of each class of [ps], in order. *)
Fixpoint match_classes (ps : list (char -> bool)) (s : str) : bool :=
  match ps, s with
  | [], _ => true
  | p :: ps', c :: t => p c && match_classes ps' t
  | _ :: _, [] => false
  end.

Definition unreadable_pdf : pdf :=
  {| pages := Raise FileDataError; images := Raise PDFPageCountError |}.

Definition readable_pdf : pdf :=
  {| pages := Ok [py "Abstract of the paper"]; images := Ok [] |}.

Section Notions.
Context {U : UnicodeDB}.

(** The ratio and the test of [remove_numeric_blocks], without the
    exception. *)
Definition digit_ratio (line : str) : Q :=
  (Qlen (re_findall (Cls numeric_char) line) / (Qlen line + (1 # 1000000)))%Q.

Definition numeric_like_b (line : str) : bool :=
  Qgt_bool (digit_ratio line) (1 # 2) || re_match numeric_line_re line.

(** Lines 95-124 of [clean_text]: the filters before the white-space
    clean-up. *)
Definition early_filters (text : str) : result str :=
  let text := re_sub bracket_citation_re [] text in
  let text := re_sub bare_citation_re [] text in
  let text := re_sub lone_et_al_re [] text in
  let text := re_sub url_re [] text in
  let text := re_sub email_re [] text in
  let text := re_sub caption_re [] text in
  text <- remove_numeric_blocks text ;;
  let text := remove_tabular_blocks text in
  let text := remove_headers_footers text in
  Ok (join [NL] (dedup_loop (splitlines text) [] [])).

(** The sequence applied twice. *)
Definition noise_filters_twice (text : str) : result str :=
  once <- noise_filters text ;;
  noise_filters once.

(** A whole-word occurrence of [word], compared without case, at a cursor:
    a word boundary, the letters of the word, a word boundary. *)
Definition word_at (word : string) (b : option char) (s : str) : bool :=
  let n := length (py word) in
  at_boundary b s
  && match_classes (map ieq (py word)) s
  && at_boundary (adv b (firstn n s)) (skipn n s).

(** One of the three section titles starts at the cursor. *)
Definition trailing_title_at (b : option char) (s : str) : bool :=
  word_at "references" b s || word_at "acknowledgements" b s
  || word_at "appendix" b s.

(** The truncation in the words of the specification: the text up to the
    first cursor where a section title starts. *)
Fixpoint cut_at_title (b : option char) (s : str) : str :=
  if trailing_title_at b s then []
  else match s with
       | [] => []
       | c :: t => c :: cut_at_title (Some c) t
       end.

End Notions.

(** ** Notions for the other functions of the module *)

(** [a] is [b] with some elements left out, the order kept. *)
Inductive sublist {A : Type} : list A -> list A -> Prop :=
| sublist_nil : sublist [] []
| sublist_keep x a b : sublist a b -> sublist (x :: a) (x :: b)
| sublist_drop x a b : sublist a b -> sublist a (x :: b).

(** The characters of a text that are not white space. *)
Definition visible (s : str) : str := filter (fun c => negb (is_space c)) s.

(** Some run of [p]-characters in [s] has at least [n] characters. *)
Fixpoint has_run (p : char -> bool) (n : nat) (s : str) : bool :=
  match s with
  | [] => false
  | _ :: t => (n <=? lead p s)%nat || has_run p n t
  end.

(** The page marker [ocr_pdf] writes before the text of page [n]. *)
Definition page_marker (n : nat) : str :=
  [NL; NL] ++ py "--- Page " ++ str_of_nat n ++ py " ---" ++ [NL; NL].

(** The text of the pages from number [i + 1] on, each after its marker. *)
Fixpoint ocr_text (i : nat) (texts : list str) : str :=
  match texts with
  | [] => []
  | t :: rest => page_marker (i + 1) ++ t ++ ocr_text (S i) rest
  end.


(** Consecutive lines differ once stripped, the first one from [prev]. *)
Fixpoint distinct_adj (prev : str) (lines : list str) : bool :=
  match lines with
  | [] => true
  | l :: rest => negb (str_eqb (strip l) (strip prev)) && distinct_adj l rest
  end.

(** For the e-mail filter.  A token is a maximal run of characters that are
    not white space. *)
Definition not_space (c : char) : bool := negb (is_space c).

(** An [@] followed by a character that is not white space. *)
Definition at_sign_then (s : str) : bool :=
  match s with
  | c :: x :: _ => (ch "@" =? c)%N && not_space x
  | _ => false
  end.

(** Such an [@] somewhere in the token that starts at the cursor. *)
Fixpoint inner_at (s : str) : bool :=
  match s with
  | [] => false
  | c :: t => not_space c && (at_sign_then s || inner_at t)
  end.

(** The token at the cursor has an [@] with a character of the token before
    it and one after it. *)
Definition email_at (s : str) : bool :=
  match s with
  | [] => false
  | c :: t => not_space c && inner_at t
  end.

(** The text without the tokens that have such an [@]; [dropping] holds
    inside a token that is being removed. *)
Fixpoint strip_emails (dropping : bool) (s : str) : str :=
  match s with
  | [] => []
  | c :: t =>
      if is_space c then c :: strip_emails false t
      else if dropping then strip_emails true t
           else if email_at s then strip_emails true t
                else c :: strip_emails false t
  end.

(** No [@] of the text has a character that is not white space on each
    side ([prev]: such a character comes just before the text). *)
Fixpoint no_inner_at (prev : bool) (s : str) : bool :=
  match s with
  | [] => true
  | c :: t => negb (prev && at_sign_then s) && no_inner_at (not_space c) t
  end.

Section MoreNotions.
Context {U : UnicodeDB}.

(** The test of the loop of [remove_tabular_blocks]. *)
Definition tabular_line (line : str) : bool :=
  (1 <=? length (re_findall tabular_re line))%nat || (2 <=? count TAB line)%nat.

End MoreNotions.

(** * Properties *)

(** ** The matcher on classes and runs *)

Section RegexFacts.
Context {U : UnicodeDB}.

(** The matcher sees its continuation only through its answers. *)
Lemma star_loop_ext (body : cont -> cont) (k1 k2 : cont) :
  (forall c1 c2, (forall b s, c1 b s = c2 b s) -> forall b s, body c1 b s = body c2 b s) ->
  (forall b s, k1 b s = k2 b s) ->
  forall n b s, star_loop body k1 n b s = star_loop body k2 n b s.
Proof.
  intros Hbody Hk. induction n as [|n IH]; intros b s; cbn [star_loop]; [apply Hk|].
  rewrite Hk. f_equal. apply Hbody. intros b' t.
  destruct (length t <? length s)%nat; [apply IH | reflexivity].
Qed.

Lemma lazy_loop_ext (body : cont -> cont) (k1 k2 : cont) :
  (forall c1 c2, (forall b s, c1 b s = c2 b s) -> forall b s, body c1 b s = body c2 b s) ->
  (forall b s, k1 b s = k2 b s) ->
  forall n b s, lazy_loop body k1 n b s = lazy_loop body k2 n b s.
Proof.
  intros Hbody Hk. induction n as [|n IH]; intros b s; cbn [lazy_loop]; [apply Hk|].
  rewrite Hk. f_equal. apply Hbody. intros b' t.
  destruct (length t <? length s)%nat; [apply IH | reflexivity].
Qed.

Lemma m_ext (r : regex) :
  forall k1 k2, (forall b s, k1 b s = k2 b s) -> forall b s, m r k1 b s = m r k2 b s.
Proof.
  induction r as [|p|r1 IH1 r2 IH2|r1 IH1 r2 IH2|r1 IH1|r1 IH1| |ml|ml];
    intros k1 k2 Hk b s; cbn [m].
  - apply Hk.
  - destruct s as [|c t]; [reflexivity|]. destruct (p c); [apply Hk | reflexivity].
  - apply IH1. intros b' t. apply IH2, Hk.
  - rewrite (IH1 k1 k2 Hk), (IH2 k1 k2 Hk). reflexivity.
  - apply star_loop_ext; assumption.
  - apply lazy_loop_ext; assumption.
  - destruct (at_boundary b s); [apply Hk | reflexivity].
  - destruct (at_bol ml b); [apply Hk | reflexivity].
  - destruct (at_eol ml s); [apply Hk | reflexivity].
Qed.

Lemma m_none (r : regex) :
  forall k, (forall b s, k b s = None) -> forall b s, m r k b s = None.
Proof.
  induction r as [|p|r1 IH1 r2 IH2|r1 IH1 r2 IH2|r1 IH1|r1 IH1| |ml|ml];
    intros k Hk b s; cbn [m].
  - apply Hk.
  - destruct s as [|c t]; [reflexivity|]. destruct (p c); [apply Hk | reflexivity].
  - apply IH1. intros b' t. apply IH2, Hk.
  - rewrite (IH1 k Hk), (IH2 k Hk). reflexivity.
  - generalize (length s) at 1. intros n. revert b s.
    induction n as [|n IHn]; intros b s; cbn [star_loop]; [apply Hk|].
    rewrite Hk, IH1; [reflexivity|].
    intros b' t. destruct (length t <? length s)%nat; [apply IHn | reflexivity].
  - generalize (length s) at 1. intros n. revert b s.
    induction n as [|n IHn]; intros b s; cbn [lazy_loop]; [apply Hk|].
    rewrite Hk, IH1; [reflexivity|].
    intros b' t. destruct (length t <? length s)%nat; [apply IHn | reflexivity].
  - destruct (at_boundary b s); [apply Hk | reflexivity].
  - destruct (at_bol ml b); [apply Hk | reflexivity].
  - destruct (at_eol ml s); [apply Hk | reflexivity].
Qed.

(** The bound on the iterations of [a*] is never what stops the loop: any
    larger bound gives the same answer. *)
Lemma star_loop_step (r : regex) (k : cont) :
  forall n b s, (length s <= n)%nat ->
    star_loop (m r) k (S n) b s = star_loop (m r) k n b s.
Proof.
  induction n as [|n IH]; intros b s Hn.
  - destruct s; [|simpl in Hn; lia].
    cbn [star_loop]. rewrite m_none; [reflexivity|]. intros b' t. reflexivity.
  - cbn [star_loop]. f_equal. apply m_ext. intros b' t.
    destruct (Nat.ltb_spec (length t) (length s)); [|reflexivity].
    apply (IH b' t). lia.
Qed.

Lemma star_loop_bound (r : regex) (k : cont) b s :
  forall extra, star_loop (m r) k (length s + extra) b s = m (Star r) k b s.
Proof.
  induction extra as [|extra IH].
  - rewrite Nat.add_0_r. reflexivity.
  - rewrite Nat.add_succ_r, star_loop_step by lia. exact IH.
Qed.

Lemma lazy_loop_step (r : regex) (k : cont) :
  forall n b s, (length s <= n)%nat ->
    lazy_loop (m r) k (S n) b s = lazy_loop (m r) k n b s.
Proof.
  induction n as [|n IH]; intros b s Hn.
  - destruct s; [|simpl in Hn; lia].
    cbn [lazy_loop]. rewrite m_none; [destruct (k b []); reflexivity|].
    intros b' t. reflexivity.
  - cbn [lazy_loop]. f_equal. apply m_ext. intros b' t.
    destruct (Nat.ltb_spec (length t) (length s)); [|reflexivity].
    apply (IH b' t). lia.
Qed.

Lemma lazy_loop_bound (r : regex) (k : cont) b s :
  forall extra, lazy_loop (m r) k (length s + extra) b s = m (LazyStar r) k b s.
Proof.
  induction extra as [|extra IH].
  - rewrite Nat.add_0_r. reflexivity.
  - rewrite Nat.add_succ_r, lazy_loop_step by lia. exact IH.
Qed.

Lemma star_loop_cls (p : char -> bool) (k : cont) :
  forall n b s, (length s <= n)%nat ->
    star_loop (m (Cls p)) k n b s = star_cls p k b s.
Proof.
  induction n as [|n IH]; intros b s Hn.
  - destruct s; [reflexivity | simpl in Hn; lia].
  - destruct s as [|c t]; [reflexivity|].
    simpl. destruct (p c); [|reflexivity].
    assert (Hlt : (length t <? S (length t))%nat = true) by (apply Nat.ltb_lt; lia).
    rewrite Hlt, IH by (simpl in Hn; lia). reflexivity.
Qed.

Lemma m_star_cls (p : char -> bool) (k : cont) b s :
  m (Star (Cls p)) k b s = star_cls p k b s.
Proof. simpl. apply star_loop_cls. lia. Qed.

Lemma star_cls_fin (p : char -> bool) :
  forall s b, star_cls p fin b s = Some (skipn (lead p s) s).
Proof.
  induction s as [|c t IH]; intros b; simpl; [reflexivity|].
  destruct (p c); [|reflexivity].
  rewrite IH. reflexivity.
Qed.

Lemma lead_le_length (p : char -> bool) : forall s, (lead p s <= length s)%nat.
Proof.
  induction s as [|c t IH]; simpl; [lia|]. destruct (p c); simpl; lia.
Qed.

Lemma m_rep_cls_star (p : char -> bool) :
  forall n b s,
    m (rep n (Cls p)) (m (Star (Cls p)) fin) b s
    = if (n <=? lead p s)%nat then Some (skipn (lead p s) s) else None.
Proof.
  induction n as [|n IH]; intros b s.
  - cbn [rep m]. fold (m (Star (Cls p)) fin b s).
    rewrite m_star_cls, star_cls_fin. reflexivity.
  - cbn [rep m]. destruct s as [|c t]; [reflexivity|].
    cbn [lead]. destruct (p c); [|reflexivity].
    rewrite IH. reflexivity.
Qed.

Lemma match_at_least_cls (p : char -> bool) n b s :
  match_at (at_least n (Cls p)) b s
  = if (n <=? lead p s)%nat then Some (lead p s) else None.
Proof.
  unfold match_at, at_least. cbn [m]. fold fin.
  rewrite m_rep_cls_star.
  destruct (n <=? lead p s)%nat; [|reflexivity].
  f_equal. rewrite length_skipn. pose proof (lead_le_length p s). lia.
Qed.

Lemma sub_at_least_cls (p : char -> bool) n repl :
  (1 <= n)%nat ->
  forall s b,
    sub_from (at_least n (Cls p)) repl b s = collapse p n repl false s
    /\ flat_map (emit repl) (scan (at_least n (Cls p)) (lead p s) b s)
       = collapse p n repl true s.
Proof.
  intros Hn. unfold sub_from.
  induction s as [|c t IH]; intros b.
  - cbn [lead scan]. rewrite match_at_least_cls. cbn [lead].
    destruct (Nat.leb_spec n 0); [lia|]. split; reflexivity.
  - assert (H0 : flat_map (emit repl) (scan (at_least n (Cls p)) 0 b (c :: t))
                 = collapse p n repl false (c :: t)).
    { cbn [scan]. rewrite match_at_least_cls. cbn [collapse].
      destruct (Nat.leb_spec n (lead p (c :: t))) as [Hle|Hlt].
      - cbn [lead] in *. destruct (p c); [|lia].
        cbn [flat_map emit]. f_equal. apply IH.
      - cbn [flat_map emit]. destruct (p c); cbn; f_equal; apply IH. }
    split; [exact H0|].
    cbn [lead]. destruct (p c) eqn:E.
    + cbn [scan collapse]. rewrite E. apply IH.
    + rewrite H0. cbn [collapse]. rewrite E. reflexivity.
Qed.

End RegexFacts.

(** ** Runs of a character class *)

Section Runs.
Variable p : char -> bool.

Lemma lead_app_le (a b : str) : (lead p a <= lead p (a ++ b))%nat.
Proof.
  induction a as [|c a IH]; simpl; [lia|]. destruct (p c); lia.
Qed.

Lemma lead_app_bound (a b : str) : (lead p (a ++ b) <= length a + lead p b)%nat.
Proof.
  induction a as [|c a IH]; simpl; [lia|]. destruct (p c); lia.
Qed.

Lemma lead_all (a b : str) :
  forallb p a = true -> lead p (a ++ b) = (length a + lead p b)%nat.
Proof.
  induction a as [|c a IH]; simpl; [reflexivity|].
  intros H. apply andb_prop in H as [Hc Ha]. rewrite Hc, IH; auto.
Qed.

Lemma runs_below_nil n : (0 < n)%nat -> runs_below p n [].
Proof.
  intros Hn l1 l2 E. symmetry in E. apply app_eq_nil in E as [_ ->]. exact Hn.
Qed.

Lemma runs_below_cons n c s :
  runs_below p n (c :: s) <-> (lead p (c :: s) < n)%nat /\ runs_below p n s.
Proof.
  split.
  - intros H. split.
    + apply (H [] (c :: s)); reflexivity.
    + intros l1 l2 E. apply (H (c :: l1) l2). rewrite E. reflexivity.
  - intros [Hl Hs] l1 l2 E. destruct l1 as [|x l1]; simpl in E.
    + subst l2. exact Hl.
    + injection E as _ E. apply (Hs l1 l2 E).
Qed.

Lemma runs_below_prepend n a s :
  runs_below p n s -> (length a + lead p s < n)%nat -> runs_below p n (a ++ s).
Proof.
  induction a as [|c a IH]; intros Hs Hl; [exact Hs|].
  simpl. apply runs_below_cons. split.
  - pose proof (lead_app_bound (c :: a) s). simpl in *. lia.
  - apply IH; [exact Hs | simpl in Hl; lia].
Qed.

Lemma runs_below_infix n l1 s l2 :
  runs_below p n (l1 ++ s ++ l2) -> runs_below p n s.
Proof.
  intros H a b E. subst s.
  pose proof (H (l1 ++ a) (b ++ l2)) as Hb.
  rewrite <- !app_assoc in Hb. specialize (Hb eq_refl).
  pose proof (lead_app_le b l2). lia.
Qed.

Lemma runs_below_lead n s : runs_below p n s -> (lead p s < n)%nat.
Proof. intros H. apply (H [] s). reflexivity. Qed.

(** Replacing the long runs leaves none. *)
Lemma collapse_runs_below n repl :
  forallb p repl = true -> (length repl < n)%nat ->
  forall s,
    (runs_below p n (collapse p n repl false s)
     /\ ((lead p s < n)%nat -> lead p (collapse p n repl false s) = lead p s))
    /\ (runs_below p n (collapse p n repl true s)
        /\ lead p (collapse p n repl true s) = O).
Proof.
  intros Hrepl Hlen.
  induction s as [|c t [[IHr IHl] [IHdr IHdl]]].
  - cbn. repeat split; auto; apply runs_below_nil; lia.
  - assert (Hnorm : runs_below p n (collapse p n repl false (c :: t))
       /\ ((lead p (c :: t) < n)%nat ->
           lead p (collapse p n repl false (c :: t)) = lead p (c :: t))).
    { cbn [collapse]. destruct (p c) eqn:Ec.
      - destruct (Nat.leb_spec n (lead p (c :: t))) as [Hge|Hlt].
        + split; [|lia].
          apply runs_below_prepend; [exact IHdr | rewrite IHdl; lia].
        + cbn [lead] in *. rewrite Ec in *.
          assert (Ht : (lead p t < n)%nat) by lia.
          split.
          * apply runs_below_cons. split; [|exact IHr].
            cbn [lead]. rewrite Ec, (IHl Ht). exact Hlt.
          * intros _. rewrite (IHl Ht). reflexivity.
      - cbn [lead]. rewrite Ec. split.
        + apply runs_below_cons. split; [cbn [lead]; rewrite Ec; lia | exact IHr].
        + reflexivity. }
    split; [exact Hnorm|].
    cbn [collapse]. destruct (p c) eqn:Ec.
    + split; assumption.
    + split.
      * apply runs_below_cons. split; [cbn [lead]; rewrite Ec; lia | exact IHr].
      * cbn [lead]. rewrite Ec. reflexivity.
Qed.

(** A text without long runs is left as it is. *)
Lemma collapse_fixed n repl s :
  runs_below p n s -> collapse p n repl false s = s.
Proof.
  induction s as [|c t IH]; intros H; [reflexivity|].
  apply runs_below_cons in H as [Hl Ht].
  cbn [collapse]. destruct (Nat.leb_spec n (lead p (c :: t))); [lia|].
  rewrite (IH Ht). destruct (p c); reflexivity.
Qed.

Lemma lead_app_stop (a : str) (x : char) (s : str) :
  p x = false -> lead p ((a ++ [x]) ++ s) = lead p (a ++ [x]).
Proof.
  intros Hx. induction a as [|c a IH]; simpl.
  - rewrite Hx. reflexivity.
  - destruct (p c); [f_equal; exact IH | reflexivity].
Qed.

(** What follows a character outside the class is replaced on its own. *)
Lemma collapse_app n repl (a : str) (x : char) (s : str) :
  p x = false ->
  forall dropping,
    collapse p n repl dropping ((a ++ [x]) ++ s)
    = collapse p n repl dropping (a ++ [x]) ++ collapse p n repl false s.
Proof.
  intros Hx. induction a as [|c a IH]; intros dropping.
  - cbn [app collapse]. rewrite Hx. reflexivity.
  - pose proof (lead_app_stop (c :: a) x s Hx) as Hl.
    cbn [app] in *. cbn [collapse]. rewrite Hl.
    destruct (p c); [destruct dropping; [apply IH|]|].
    + destruct (n <=? lead p (c :: a ++ [x]))%nat; rewrite IH;
        [rewrite app_assoc|]; reflexivity.
    + rewrite IH. reflexivity.
Qed.

Lemma collapse_rest_of_run n repl (run post : str) :
  forallb p run = true -> lead p post = O ->
  collapse p n repl true (run ++ post) = collapse p n repl false post.
Proof.
  intros Hr Hp. induction run as [|c run IH].
  - destruct post as [|y post]; [reflexivity|].
    cbn [app collapse lead] in *. destruct (p y); [discriminate | reflexivity].
  - cbn [forallb] in Hr. apply andb_prop in Hr as [Hc Hr].
    cbn [app collapse]. rewrite Hc. apply IH. exact Hr.
Qed.

(** A run of at least [n] characters of the class that ends where the class
    does is replaced by [repl]. *)
Lemma collapse_run n repl (run post : str) :
  (1 <= n)%nat -> forallb p run = true -> (n <= length run)%nat ->
  lead p post = O ->
  collapse p n repl false (run ++ post) = repl ++ collapse p n repl false post.
Proof.
  intros H1 Hr Hn Hp. destruct run as [|c run]; [simpl in Hn; lia|].
  pose proof (lead_all (c :: run) post Hr) as Hl.
  cbn [forallb] in Hr. apply andb_prop in Hr as [Hc Hr].
  cbn [app] in *. cbn [collapse]. rewrite Hl, Hp, Hc.
  destruct (Nat.leb_spec n (length (c :: run) + 0)); [|lia].
  f_equal. apply collapse_rest_of_run; assumption.
Qed.

(** A maximal run of at least [n] characters of the class becomes [repl],
    and the text on each side of it is replaced on its own. *)
Lemma collapse_maximal_run n repl (pre run post : str) :
  (1 <= n)%nat -> lead p (rev pre) = O ->
  forallb p run = true -> (n <= length run)%nat -> lead p post = O ->
  collapse p n repl false (pre ++ run ++ post)
  = collapse p n repl false pre ++ repl ++ collapse p n repl false post.
Proof.
  intros H1 Hpre Hr Hn Hp.
  rewrite <- (collapse_run n repl run post H1 Hr Hn Hp).
  destruct (rev pre) as [|x r] eqn:E.
  - apply (f_equal (@rev char)) in E. rewrite rev_involutive in E. subst pre.
    reflexivity.
  - apply (f_equal (@rev char)) in E. rewrite rev_involutive in E. subst pre.
    cbn [rev]. cbn [lead] in Hpre.
    destruct (p x) eqn:Ex; [discriminate|].
    apply collapse_app. exact Ex.
Qed.

End Runs.

(** The runs of a disjoint class do not grow when the replacement is not
    empty. *)
Lemma collapse_other_runs (p q : char -> bool) n k repl :
  (forall c, q c = true -> p c = false) ->
  forallb p repl = true -> repl <> [] -> (0 < k)%nat ->
  forall s, runs_below q k s ->
    (runs_below q k (collapse p n repl false s)
     /\ (lead q (collapse p n repl false s) <= lead q s)%nat)
    /\ runs_below q k (collapse p n repl true s).
Proof.
  intros Hdis Hrepl Hne Hk.
  assert (Hq0 : forall x, lead q (repl ++ x) = O).
  { intros x. destruct repl as [|r0 repl']; [congruence|].
    simpl in *. apply andb_prop in Hrepl as [Hr0 _].
    destruct (q r0) eqn:E; [|reflexivity].
    apply Hdis in E. congruence. }
  assert (Hpre : forall a x, forallb p a = true -> runs_below q k x ->
                             runs_below q k (a ++ x)).
  { induction a as [|c a IHa]; intros x Ha Hx; [exact Hx|].
    simpl in Ha. apply andb_prop in Ha as [Hc Ha].
    simpl. apply runs_below_cons. split; [|apply IHa; assumption].
    cbn [lead]. destruct (q c) eqn:E; [|lia].
    apply Hdis in E. congruence. }
  induction s as [|c t IH]; intros Hs.
  - cbn. repeat split; auto; apply runs_below_nil; exact Hk.
  - apply runs_below_cons in Hs as [Hl Ht].
    destruct (IH Ht) as [[IHr IHl] IHd].
    assert (Hkeep : runs_below q k (c :: collapse p n repl false t)
                    /\ (lead q (c :: collapse p n repl false t) <= lead q (c :: t))%nat).
    { assert (Hle : (lead q (c :: collapse p n repl false t) <= lead q (c :: t))%nat).
      { cbn [lead]. destruct (q c); lia. }
      split; [|exact Hle].
      apply runs_below_cons. split; [lia | exact IHr]. }
    cbn [collapse]. destruct (p c) eqn:Ec.
    + split; [|exact IHd].
      destruct (n <=? lead p (c :: t))%nat; [|exact Hkeep].
      split; [apply Hpre; assumption | rewrite Hq0; lia].
    + split; [exact Hkeep | apply Hkeep].
Qed.

(** ** Stripping white space *)

Lemma lstrip_nil_iff s : lstrip s = [] <-> forallb is_space s = true.
Proof.
  induction s as [|c t IH]; simpl; [tauto|].
  destruct (is_space c); simpl; [exact IH|].
  split; discriminate.
Qed.

Lemma lstrip_head s c t : lstrip s = c :: t -> is_space c = false.
Proof.
  induction s as [|x s IH]; simpl; [discriminate|].
  destruct (is_space x) eqn:E; [exact IH|].
  intros H. injection H as -> _. exact E.
Qed.

Lemma lstrip_suffix s : exists l, s = l ++ lstrip s /\ forallb is_space l = true.
Proof.
  induction s as [|x s [l [E Hl]]]; simpl.
  - exists []. split; reflexivity.
  - destruct (is_space x) eqn:Ex.
    + exists (x :: l). simpl. rewrite Ex, Hl. split; [f_equal; exact E | reflexivity].
    + exists []. split; reflexivity.
Qed.

Lemma lstrip_fixed s :
  (forall c t, s = c :: t -> is_space c = false) -> lstrip s = s.
Proof.
  destruct s as [|c t]; intros H; [reflexivity|].
  simpl. rewrite (H c t eq_refl). reflexivity.
Qed.

Lemma forallb_rev (f : char -> bool) s : forallb f (rev s) = forallb f s.
Proof.
  induction s as [|c t IH]; [reflexivity|].
  simpl. rewrite forallb_app, IH. simpl. rewrite andb_true_r. apply andb_comm.
Qed.

Lemma rstrip_prefix s : exists l, s = rstrip s ++ l /\ forallb is_space l = true.
Proof.
  unfold rstrip. destruct (lstrip_suffix (rev s)) as [l [E Hl]].
  exists (rev l). split.
  - rewrite <- rev_app_distr, <- E, rev_involutive. reflexivity.
  - rewrite forallb_rev. exact Hl.
Qed.

Lemma rstrip_last s c t : rstrip s = t ++ [c] -> is_space c = false.
Proof.
  unfold rstrip. intros H.
  apply (f_equal (@rev char)) in H. rewrite rev_involutive, rev_app_distr in H.
  simpl in H. exact (lstrip_head _ _ _ H).
Qed.

Lemma rstrip_fixed s :
  (forall c t, s = t ++ [c] -> is_space c = false) -> rstrip s = s.
Proof.
  intros H. unfold rstrip. rewrite lstrip_fixed; [apply rev_involutive|].
  intros c t E. apply (H c (rev t)).
  rewrite <- (rev_involutive s), E. reflexivity.
Qed.

Lemma rstrip_nil_iff s : rstrip s = [] <-> forallb is_space s = true.
Proof.
  unfold rstrip. rewrite <- forallb_rev, <- lstrip_nil_iff.
  split; intros H.
  - apply (f_equal (@rev char)) in H. rewrite rev_involutive in H. exact H.
  - rewrite H. reflexivity.
Qed.

Lemma strip_infix s :
  exists l1 l2, s = l1 ++ strip s ++ l2
                /\ forallb is_space l1 = true /\ forallb is_space l2 = true.
Proof.
  destruct (lstrip_suffix s) as [l1 [E1 H1]].
  destruct (rstrip_prefix (lstrip s)) as [l2 [E2 H2]].
  exists l1, l2. unfold strip. rewrite <- E2. auto.
Qed.

Lemma strip_head s c t : strip s = c :: t -> is_space c = false.
Proof.
  unfold strip. intros H.
  destruct (rstrip_prefix (lstrip s)) as [l [E _]].
  rewrite H in E. simpl in E. exact (lstrip_head _ _ _ E).
Qed.

Lemma strip_last s c t : strip s = t ++ [c] -> is_space c = false.
Proof. apply rstrip_last. Qed.

Lemma strip_fixed s :
  (forall c t, s = c :: t -> is_space c = false) ->
  (forall c t, s = t ++ [c] -> is_space c = false) ->
  strip s = s.
Proof.
  intros Hh Hl. unfold strip. rewrite (lstrip_fixed _ Hh). apply rstrip_fixed, Hl.
Qed.

Lemma strip_nil_iff s : strip s = [] <-> forallb is_space s = true.
Proof.
  unfold strip. rewrite rstrip_nil_iff.
  destruct (lstrip_suffix s) as [l [E Hl]].
  split; intros H.
  - rewrite E, forallb_app, Hl, H. reflexivity.
  - rewrite E, forallb_app in H. apply andb_prop in H. tauto.
Qed.

(** ** Blank lines *)

Lemma blank_is_space c : is_blank c = true -> is_space c = true /\ is_nl c = false.
Proof.
  unfold is_blank, one_of. cbn [existsb]. rewrite orb_false_r.
  intros H. apply orb_prop in H as [H|H]; apply N.eqb_eq in H; subst c;
    split; reflexivity.
Qed.

Lemma is_nl_space c : is_nl c = true -> is_space c = true.
Proof. unfold is_nl. intros H. apply N.eqb_eq in H. subst c. reflexivity. Qed.

Lemma nl_lead_app_le (a b : str) : (nl_lead a <= nl_lead (a ++ b))%nat.
Proof.
  induction a as [|c a IH]; simpl; [lia|]. destruct (is_space c); lia.
Qed.

Lemma nl_lead_nl_free (a b : str) :
  nl_free a = true -> (nl_lead (a ++ b) <= nl_lead b)%nat.
Proof.
  induction a as [|c a IH]; simpl; [lia|].
  intros H. apply andb_prop in H as [Hc Ha].
  destruct (is_space c); [|lia].
  destruct (is_nl c); [discriminate|]. specialize (IH Ha). lia.
Qed.

Lemma nl_lead_all_space (a b : str) :
  forallb is_space a = true ->
  nl_lead (a ++ b) = (length (filter is_nl a) + nl_lead b)%nat.
Proof.
  induction a as [|c a IH]; simpl; [reflexivity|].
  intros H. apply andb_prop in H as [Hc Ha]. rewrite Hc, (IH Ha).
  destruct (is_nl c); simpl; lia.
Qed.

Lemma nl_lead_not_blank (a b : str) :
  nl_free a = true -> forallb is_space a = false -> nl_lead (a ++ b) = O.
Proof.
  induction a as [|c a IH]; simpl; [discriminate|].
  intros H Hs. apply andb_prop in H as [Hc Ha].
  destruct (is_space c); [|reflexivity].
  destruct (is_nl c); [discriminate|]. simpl in Hs. rewrite (IH Ha Hs). reflexivity.
Qed.

Lemma lead_nl_le s : (lead is_nl s <= nl_lead s)%nat.
Proof.
  induction s as [|c t IH]; simpl; [lia|].
  destruct (is_nl c) eqn:E; [|lia].
  rewrite (is_nl_space c E). lia.
Qed.

Lemma gaps_below_nil n : (0 < n)%nat -> gaps_below n [].
Proof.
  intros Hn l1 l2 E. symmetry in E. apply app_eq_nil in E as [_ ->]. exact Hn.
Qed.

Lemma gaps_below_cons n c s :
  gaps_below n (c :: s) <-> (nl_lead (c :: s) < n)%nat /\ gaps_below n s.
Proof.
  split.
  - intros H. split.
    + apply (H [] (c :: s)); reflexivity.
    + intros l1 l2 E. apply (H (c :: l1) l2). rewrite E. reflexivity.
  - intros [Hl Hs] l1 l2 E. destruct l1 as [|x l1]; simpl in E.
    + subst l2. exact Hl.
    + injection E as _ E. apply (Hs l1 l2 E).
Qed.

Lemma gaps_below_infix n l1 s l2 : gaps_below n (l1 ++ s ++ l2) -> gaps_below n s.
Proof.
  intros H a b E. subst s.
  pose proof (H (l1 ++ a) (b ++ l2)) as Hb.
  rewrite <- !app_assoc in Hb. specialize (Hb eq_refl).
  pose proof (nl_lead_app_le b l2). lia.
Qed.

Lemma gaps_below_runs n s : gaps_below n s -> runs_below is_nl n s.
Proof.
  intros H l1 l2 E. specialize (H l1 l2 E). pose proof (lead_nl_le l2). lia.
Qed.

(** A line without newline before a gap adds nothing to it. *)
Lemma gaps_below_line n line s :
  nl_free line = true -> gaps_below n s -> gaps_below n (line ++ s).
Proof.
  induction line as [|c line IH]; intros Hf Hs; [exact Hs|].
  pose proof Hf as Hf'. simpl in Hf'. apply andb_prop in Hf' as [_ Hline].
  cbn [app]. apply gaps_below_cons. split; [|apply IH; assumption].
  pose proof (nl_lead_nl_free (c :: line) s Hf) as Hle.
  pose proof (Hs [] s eq_refl). cbn [app] in Hle. lia.
Qed.

(** Collapsing the runs of blanks leaves the gaps as they are. *)
Lemma collapse_blanks_gaps n :
  (0 < n)%nat ->
  forall s, gaps_below n s ->
    forall dropping,
      gaps_below n (collapse is_blank 2 [SP] dropping s)
      /\ (nl_lead (collapse is_blank 2 [SP] dropping s) <= nl_lead s)%nat.
Proof.
  intros Hn. induction s as [|c t IH]; intros Hs dropping.
  - cbn. split; [apply gaps_below_nil; exact Hn | lia].
  - apply gaps_below_cons in Hs as [Hl Ht].
    assert (Hkeep : gaps_below n (c :: collapse is_blank 2 [SP] false t)
                    /\ (nl_lead (c :: collapse is_blank 2 [SP] false t)
                        <= nl_lead (c :: t))%nat).
    { destruct (IH Ht false) as [Hg Hle].
      assert (Hb : (nl_lead (c :: collapse is_blank 2 [SP] false t)
                    <= nl_lead (c :: t))%nat).
      { cbn [nl_lead]. destruct (is_space c); lia. }
      split; [|exact Hb]. apply gaps_below_cons. split; [lia | exact Hg]. }
    cbn [collapse]. destruct (is_blank c) eqn:Ec; [|exact Hkeep].
    destruct (blank_is_space c Ec) as [Hsp Hnl].
    destruct (IH Ht true) as [Hg Hle].
    assert (Hc : nl_lead (c :: t) = nl_lead t).
    { cbn [nl_lead]. rewrite Hsp, Hnl. reflexivity. }
    destruct dropping.
    + split; [exact Hg | lia].
    + destruct (2 <=? lead is_blank (c :: t))%nat; [|exact Hkeep].
      cbn [app].
      assert (Hsp' : nl_lead (SP :: collapse is_blank 2 [SP] true t)
                     = nl_lead (collapse is_blank 2 [SP] true t)) by reflexivity.
      split; [|lia]. apply gaps_below_cons. split; [lia | exact Hg].
Qed.

Lemma join_cons sep p ps :
  join sep (p :: ps) = p ++ match ps with [] => [] | _ => sep ++ join sep ps end.
Proof. destruct ps; simpl; [rewrite app_nil_r|]; reflexivity. Qed.

Lemma join_app sep a b :
  join sep (a ++ b)
  = match a, b with
    | [], _ => join sep b
    | _, [] => join sep a
    | _, _ => join sep a ++ sep ++ join sep b
    end.
Proof.
  induction a as [|p a IH]; [reflexivity|].
  destruct b as [|q b]; [rewrite app_nil_r; reflexivity|].
  destruct a as [|p' a]; [reflexivity|].
  change (join sep ((p :: p' :: a) ++ q :: b))
    with (p ++ sep ++ join sep ((p' :: a) ++ q :: b)).
  rewrite IH.
  change (join sep (p :: p' :: a)) with (p ++ sep ++ join sep (p' :: a)).
  rewrite <- !app_assoc. reflexivity.
Qed.

Lemma str_eqb_eq a b : str_eqb a b = true <-> a = b.
Proof.
  unfold str_eqb. destruct (list_eq_dec N.eq_dec a b); split; congruence.
Qed.

Lemma blank_line_iff line : blank_line line = forallb is_space line.
Proof.
  unfold blank_line. destruct (forallb is_space line) eqn:E.
  - apply strip_nil_iff in E. rewrite E. reflexivity.
  - destruct (strip line) eqn:Es; [|reflexivity].
    apply strip_nil_iff in Es. congruence.
Qed.

Lemma dedup_loop_spec :
  forall lines deduped prev, dedup_loop lines deduped prev = deduped ++ dedup prev lines.
Proof.
  induction lines as [|line rest IH]; intros acc prev; cbn [dedup_loop dedup].
  - rewrite app_nil_r. reflexivity.
  - destruct (negb (str_eqb (strip line) (strip prev))); rewrite IH;
      [rewrite <- app_assoc|]; reflexivity.
Qed.

(** After the loop no two blank lines follow each other, and the first line
    kept is not blank. *)
Lemma dedup_no_blank_pair :
  forall lines prev, no_blank_pair (blank_line prev) (dedup prev lines) = true.
Proof.
  induction lines as [|line rest IH]; intros prev; cbn [dedup]; [reflexivity|].
  destruct (str_eqb (strip line) (strip prev)) eqn:E; cbn [negb].
  - apply str_eqb_eq in E.
    replace (blank_line prev) with (blank_line line)
      by (unfold blank_line; rewrite E; reflexivity).
    apply IH.
  - cbn [no_blank_pair]. rewrite IH, andb_true_r.
    unfold blank_line.
    destruct (strip prev) eqn:Ep; [|reflexivity].
    destruct (strip line) eqn:El; [|reflexivity].
    rewrite (proj2 (str_eqb_eq [] [])) in E by reflexivity. discriminate.
Qed.

Lemma dedup_Forall (P : str -> Prop) :
  forall lines prev, Forall P lines -> Forall P (dedup prev lines).
Proof.
  induction lines as [|line rest IH]; intros prev H; cbn [dedup]; [constructor|].
  inversion H as [|? ? Hl Hr]; subst.
  destruct (negb (str_eqb (strip line) (strip prev))); [constructor|]; auto.
Qed.

Lemma is_linebreak_nl c : is_linebreak c = false -> is_nl c = false.
Proof.
  unfold is_nl. intros H. destruct (N.eqb_spec NL c) as [<-|]; [discriminate|reflexivity].
Qed.

Lemma splitlines_nl_free_bounded :
  forall n text, (length text <= n)%nat ->
    Forall (fun l => nl_free l = true) (splitlines text).
Proof.
  induction n as [|n IH]; intros text Hn.
  - destruct text; [constructor | simpl in Hn; lia].
  - destruct text as [|c t]; [constructor|].
    simpl in Hn. cbn [splitlines]. destruct (is_linebreak c) eqn:Ec.
    + constructor; [reflexivity|].
      destruct t as [|c2 t2]; [constructor|].
      destruct ((c =? CR)%N && (c2 =? NL)%N); apply IH; simpl in *; lia.
    + assert (Ht : Forall (fun l => nl_free l = true) (splitlines t))
        by (apply IH; lia).
      apply is_linebreak_nl in Ec.
      destruct (splitlines t) as [|l ls].
      * constructor; [|constructor]. cbn [nl_free forallb]. rewrite Ec. reflexivity.
      * inversion Ht as [|? ? Hl Hls]; subst. constructor; [|exact Hls].
        cbn [nl_free forallb]. rewrite Ec. exact Hl.
Qed.

Lemma splitlines_nl_free text :
  Forall (fun l => nl_free l = true) (splitlines text).
Proof. apply (splitlines_nl_free_bounded (length text)). lia. Qed.

Lemma join_lines_gaps :
  forall lines prev_blank,
    Forall (fun l => nl_free l = true) lines ->
    no_blank_pair prev_blank lines = true ->
    gaps_below 3 (join [NL] lines)
    /\ (nl_lead (join [NL] lines) <= 1)%nat
    /\ (forall l rest, lines = l :: rest -> blank_line l = false ->
                       nl_lead (join [NL] lines) = O).
Proof.
  induction lines as [|l rest IH]; intros pb Hf Hp.
  - cbn. split; [apply gaps_below_nil; lia|]. split; [lia | discriminate].
  - inversion Hf as [|? ? Hl Hrest]; subst.
    cbn [no_blank_pair] in Hp. apply andb_prop in Hp as [_ Hp].
    destruct rest as [|l2 rest].
    + cbn [join].
      pose proof (nl_lead_nl_free l [] Hl) as Hle. rewrite app_nil_r in Hle.
      cbn [nl_lead] in Hle.
      split; [|split; [lia | intros; lia]].
      rewrite <- (app_nil_r l). apply gaps_below_line; [exact Hl|].
      apply gaps_below_nil. lia.
    + destruct (IH (blank_line l) Hrest Hp) as [Hg [Hle Hz]].
      change (join [NL] (l :: l2 :: rest)) with (l ++ NL :: join [NL] (l2 :: rest)).
      set (J := join [NL] (l2 :: rest)) in *.
      assert (HJ : blank_line l = true -> nl_lead J = O).
      { intros Hb. apply (Hz l2 rest eq_refl).
        cbn [no_blank_pair] in Hp. rewrite Hb in Hp.
        destruct (blank_line l2); [discriminate | reflexivity]. }
      assert (Hnl : nl_lead (NL :: J) = S (nl_lead J)) by reflexivity.
      assert (Hlead : (nl_lead (l ++ NL :: J) <= 1)%nat
                      /\ (blank_line l = false -> nl_lead (l ++ NL :: J) = O)).
      { destruct (blank_line l) eqn:Hb.
        - split; [|discriminate].
          pose proof (nl_lead_nl_free l (NL :: J) Hl). rewrite (HJ eq_refl) in Hnl. lia.
        - rewrite blank_line_iff in Hb.
          rewrite (nl_lead_not_blank l (NL :: J) Hl Hb). split; [lia | reflexivity]. }
      split; [|split; [apply Hlead|]].
      * apply gaps_below_line; [exact Hl|].
        apply gaps_below_cons. split; [lia | exact Hg].
      * intros l' rest' E Hb. injection E as <- _. apply Hlead, Hb.
Qed.

Lemma split_not_nil sep text : split sep text <> [].
Proof.
  destruct text as [|c t]; [discriminate|]. cbn [split].
  destruct (c =? sep)%N; [discriminate|]. destruct (split sep t); discriminate.
Qed.

Lemma join_split text : join [NL] (split NL text) = text.
Proof.
  induction text as [|c t IH]; [reflexivity|].
  cbn [split]. destruct (N.eqb_spec c NL) as [->|Hc].
  - pose proof (split_not_nil NL t) as Hne.
    destruct (split NL t) as [|l ls]; [contradiction|].
    change (join [NL] ([] :: l :: ls)) with (NL :: join [NL] (l :: ls)).
    rewrite IH. reflexivity.
  - pose proof (split_not_nil NL t) as Hne.
    destruct (split NL t) as [|l ls]; [contradiction|].
    destruct ls as [|l' ls].
    + cbn [join] in *. rewrite IH. reflexivity.
    + change (join [NL] ((c :: l) :: l' :: ls)) with (c :: join [NL] (l :: l' :: ls)).
      rewrite IH. reflexivity.
Qed.

(** In a text that neither starts nor ends with white space and whose gaps
    hold at most two newlines, no two blank lines follow each other. *)
Lemma stripped_lines_not_blank (out : str) :
  gaps_below 3 out ->
  (forall c t, out = c :: t -> is_space c = false) ->
  (forall c t, out = t ++ [c] -> is_space c = false) ->
  forall l1 a b l2,
    split NL out = l1 ++ a :: b :: l2 ->
    forallb is_space a = true -> forallb is_space b = false.
Proof.
  intros Hg Hhead Hlast l1 a b l2 E Ha.
  destruct (forallb is_space b) eqn:Hb; [exfalso | reflexivity].
  pose proof (join_split out) as Hj. rewrite E, join_app in Hj.
  change (join [NL] (a :: b :: l2)) with (a ++ NL :: join [NL] (b :: l2)) in Hj.
  rewrite join_cons in Hj.
  destruct l1 as [|x l1].
  - destruct a as [|c a].
    + cbn [app] in Hj. symmetry in Hj. discriminate (Hhead _ _ Hj).
    + cbn [app] in Hj. simpl in Ha. apply andb_prop in Ha as [Hc _].
      symmetry in Hj. rewrite (Hhead _ _ Hj) in Hc. discriminate.
  - destruct l2 as [|y l2].
    + rewrite app_nil_r in Hj.
      destruct (exists_last (l := b)) as [b' [c Eb]].
      * intros ->. symmetry in Hj.
        replace (join [NL] (x :: l1) ++ [NL] ++ a ++ [NL])
          with ((join [NL] (x :: l1) ++ [NL] ++ a) ++ [NL]) in Hj
          by (rewrite <- !app_assoc; reflexivity).
        discriminate (Hlast _ _ Hj).
      * subst b. rewrite forallb_app in Hb. apply andb_prop in Hb as [_ Hc].
        simpl in Hc. rewrite andb_true_r in Hc.
        symmetry in Hj.
        replace (join [NL] (x :: l1) ++ [NL] ++ a ++ NL :: b' ++ [c])
          with ((join [NL] (x :: l1) ++ [NL] ++ a ++ NL :: b') ++ [c]) in Hj
          by (rewrite <- !app_assoc; reflexivity).
        rewrite (Hlast _ _ Hj) in Hc. discriminate.
    + set (W := [NL] ++ a ++ [NL] ++ b ++ [NL]).
      assert (HW : forallb is_space W = true).
      { unfold W. rewrite !forallb_app, Ha, Hb. reflexivity. }
      assert (Hout : out = join [NL] (x :: l1) ++ W ++ join [NL] (y :: l2)).
      { rewrite <- Hj. unfold W. rewrite <- !app_assoc. reflexivity. }
      specialize (Hg _ _ Hout). rewrite (nl_lead_all_space _ _ HW) in Hg.
      unfold W in Hg. rewrite !filter_app, !length_app in Hg. cbn in Hg. lia.
Qed.

(** ** The white-space clean-up *)

Section Whitespace.
Context {U : UnicodeDB}.

Lemma re_sub_at_least_cls (p : char -> bool) n repl s :
  (1 <= n)%nat ->
  re_sub (at_least n (Cls p)) repl s = collapse p n repl false s.
Proof. intros Hn. apply (sub_at_least_cls p n repl Hn). Qed.

Lemma clean_whitespace_eq text :
  clean_whitespace text
  = strip (collapse is_blank 2 [SP] false (collapse is_nl 3 [NL; NL] false text)).
Proof.
  unfold clean_whitespace, newlines_re, blanks_re, chr.
  rewrite !re_sub_at_least_cls by lia. reflexivity.
Qed.

Lemma clean_whitespace_runs text :
  runs_below is_nl 3 (clean_whitespace text)
  /\ runs_below is_blank 2 (clean_whitespace text).
Proof.
  rewrite clean_whitespace_eq.
  set (t1 := collapse is_nl 3 [NL; NL] false text).
  set (t2 := collapse is_blank 2 [SP] false t1).
  assert (H1 : runs_below is_nl 3 t1).
  { apply (collapse_runs_below is_nl 3 [NL; NL]); [reflexivity | simpl; lia]. }
  assert (H2 : runs_below is_nl 3 t2).
  { apply (collapse_other_runs is_blank is_nl 2 3 [SP]); try assumption;
      [|reflexivity|discriminate|lia].
    intros c Hc. unfold is_nl in Hc. apply N.eqb_eq in Hc. subst c. reflexivity. }
  assert (H3 : runs_below is_blank 2 t2).
  { apply (collapse_runs_below is_blank 2 [SP]); [reflexivity | simpl; lia]. }
  destruct (strip_infix t2) as [l1 [l2 [E _]]].
  split; eapply runs_below_infix; rewrite <- E; eassumption.
Qed.

(** On lines without newline, no two of them blank in a row, the clean-up
    leaves every gap with at most two newlines. *)
Lemma clean_whitespace_gaps (lines : list str) (prev_blank : bool) :
  Forall (fun l => nl_free l = true) lines ->
  no_blank_pair prev_blank lines = true ->
  gaps_below 3 (clean_whitespace (join [NL] lines)).
Proof.
  intros Hf Hp. rewrite clean_whitespace_eq.
  destruct (join_lines_gaps lines prev_blank Hf Hp) as [Hg _].
  rewrite (collapse_fixed _ _ _ _ (gaps_below_runs _ _ Hg)).
  destruct (collapse_blanks_gaps 3 ltac:(lia) _ Hg false) as [Hg' _].
  destruct (strip_infix (collapse is_blank 2 [SP] false (join [NL] lines)))
    as [l1 [l2 [E _]]].
  eapply gaps_below_infix. rewrite <- E. exact Hg'.
Qed.

(** The clean-up does nothing to a text that is clean already. *)
Lemma clean_whitespace_fixed text :
  runs_below is_nl 3 text -> runs_below is_blank 2 text ->
  (forall c t, text = c :: t -> is_space c = false) ->
  (forall c t, text = t ++ [c] -> is_space c = false) ->
  clean_whitespace text = text.
Proof.
  intros H1 H2 H3 H4. rewrite clean_whitespace_eq.
  rewrite (collapse_fixed _ _ _ _ H1), (collapse_fixed _ _ _ _ H2).
  apply strip_fixed; assumption.
Qed.

Lemma clean_whitespace_idem text :
  clean_whitespace (clean_whitespace text) = clean_whitespace text.
Proof.
  destruct (clean_whitespace_runs text) as [H1 H2].
  apply clean_whitespace_fixed; auto.
  - intros c t E. rewrite clean_whitespace_eq in E. exact (strip_head _ _ _ E).
  - intros c t E. rewrite clean_whitespace_eq in E. exact (strip_last _ _ _ E).
Qed.

End Whitespace.

(** ** Numeric blocks *)

Section NumericBlocks.
Context {U : UnicodeDB}.

Lemma denominator_positive (line : str) : (0 < Qlen line + (1 # 1000000))%Q.
Proof.
  unfold Qlen, Qlt, Qplus, inject_Z. simpl. lia.
Qed.

Lemma py_div_positive (a b : Q) : (0 < b)%Q -> py_div a b = Ok (a / b)%Q.
Proof.
  intros Hb. unfold py_div.
  destruct (Qeq_bool b 0) eqn:E; [|reflexivity].
  apply Qeq_bool_iff in E. rewrite E in Hb. exfalso. exact (Qlt_irrefl 0 Hb).
Qed.

Lemma numeric_like_ok (line : str) : numeric_like line = Ok (numeric_like_b line).
Proof.
  unfold numeric_like. rewrite (py_div_positive _ _ (denominator_positive line)).
  reflexivity.
Qed.

Lemma numeric_loop_ok :
  forall lines cleaned numeric_run,
    numeric_loop lines cleaned numeric_run
    = Ok (cleaned ++ filter (fun l => negb (numeric_like_b l)) lines).
Proof.
  induction lines as [|line rest IH]; intros cleaned numeric_run.
  - simpl. rewrite app_nil_r. reflexivity.
  - cbn [numeric_loop filter]. rewrite numeric_like_ok. cbn [bind].
    destruct (numeric_like_b line); cbn [negb].
    + destruct (3 <=? S numeric_run)%nat; cbn [Nat.eqb]; apply IH.
    + cbn. rewrite IH, <- app_assoc. reflexivity.
Qed.

(** Whatever the run counter says, a numeric-like line is never appended. *)
Lemma remove_numeric_blocks_spec (text : str) :
  remove_numeric_blocks text
  = Ok (join [NL] (filter (fun l => negb (numeric_like_b l)) (split NL text))).
Proof.
  unfold remove_numeric_blocks. rewrite numeric_loop_ok. reflexivity.
Qed.

Lemma noise_filters_split (text : str) :
  noise_filters text = (t <- early_filters text ;; Ok (clean_whitespace t)).
Proof.
  unfold noise_filters, early_filters.
  rewrite remove_numeric_blocks_spec. reflexivity.
Qed.

Lemma early_filters_lines (text : str) :
  exists lines,
    early_filters text = Ok (join [NL] lines)
    /\ Forall (fun l => nl_free l = true) lines
    /\ no_blank_pair true lines = true.
Proof.
  unfold early_filters. rewrite remove_numeric_blocks_spec. cbn [bind].
  eexists. split; [reflexivity|].
  rewrite dedup_loop_spec. cbn [app]. split.
  - apply dedup_Forall, splitlines_nl_free.
  - apply (dedup_no_blank_pair _ []).
Qed.

Lemma early_filters_ok (text : str) : exists out, early_filters text = Ok out.
Proof.
  destruct (early_filters_lines text) as [lines [E _]]. eexists. exact E.
Qed.

(** C10. For every input string, [remove_numeric_blocks] and [clean_text]
    return a string and never raise; the division of the digit ratio is by
    the line length plus a positive epsilon, which is never zero, so every
    line (the empty one too) gets its ratio. *)
Theorem cleaning_is_total (text : str) :
  (exists out, remove_numeric_blocks text = Ok out)
  /\ (exists out, clean_text text = Ok out)
  /\ (forall line : str,
        (0 < Qlen line + (1 # 1000000))%Q
        /\ py_div (Qlen (re_findall (Cls numeric_char) line))
                  (Qlen line + (1 # 1000000))%Q
           = Ok (digit_ratio line)).
Proof.
  split; [|split].
  - rewrite remove_numeric_blocks_spec. eexists. reflexivity.
  - unfold clean_text. rewrite noise_filters_split.
    destruct (early_filters_ok (re_sub trailing_re [] (find_main_start text)))
      as [out ->].
    cbn [bind]. eexists. reflexivity.
  - intros line. split; [apply denominator_positive|].
    apply py_div_positive, denominator_positive.
Qed.

(** C5, as the code has it.  For every input string, [clean_text] returns
    a string that neither starts nor ends with white space; that holds no
    three newlines in a row, so that no two empty lines follow each other,
    let alone three; in which no two lines that are blank (empty or white
    space only) follow each other either, since the duplicate-line filter
    has merged them; and that holds no two characters among space and tab in
    a row.  It is what [strip] leaves of the text in which the run
    substitution has put one space for every maximal run of two or more
    spaces and tabs, the text on each side of the run handled on its own.
    The class of the substitution is space and tab only: other horizontal
    white space is not in it. *)
Theorem clean_text_output_invariant (text : str) :
  exists out,
    clean_text text = Ok out
    /\ (forall c t, out = c :: t -> is_space c = false)
    /\ (forall c t, out = t ++ [c] -> is_space c = false)
    /\ (forall l1 l2, out <> l1 ++ [NL; NL; NL] ++ l2)
    /\ (forall l1 a b l2, split NL out = l1 ++ a :: b :: l2 ->
                          forallb is_space a = true -> forallb is_space b = false)
    /\ (forall l1 a b l2, out = l1 ++ a :: b :: l2 ->
                          is_blank a = true -> is_blank b = false)
    /\ (exists t,
          early_filters (re_sub trailing_re [] (find_main_start text)) = Ok t
          /\ out = strip (re_sub blanks_re [SP] (re_sub newlines_re [NL; NL] t)))
    /\ (forall pre run post,
          lead is_blank (rev pre) = O -> forallb is_blank run = true ->
          (2 <= length run)%nat -> lead is_blank post = O ->
          re_sub blanks_re [SP] (pre ++ run ++ post)
          = re_sub blanks_re [SP] pre ++ [SP] ++ re_sub blanks_re [SP] post)
    /\ (forall c, is_blank c = true <-> c = SP \/ c = TAB).
Proof.
  unfold clean_text. rewrite noise_filters_split.
  destruct (early_filters_lines (re_sub trailing_re [] (find_main_start text)))
    as [lines [E0 [Hf Hp]]].
  rewrite E0.
  cbn [bind]. exists (clean_whitespace (join [NL] lines)). split; [reflexivity|].
  destruct (clean_whitespace_runs (join [NL] lines)) as [Hnl Hbl].
  assert (Hhead : forall c t, clean_whitespace (join [NL] lines) = c :: t ->
                              is_space c = false).
  { intros c r E. rewrite clean_whitespace_eq in E. exact (strip_head _ _ _ E). }
  assert (Hlast : forall c t, clean_whitespace (join [NL] lines) = t ++ [c] ->
                              is_space c = false).
  { intros c r E. rewrite clean_whitespace_eq in E. exact (strip_last _ _ _ E). }
  split; [exact Hhead|]. split; [exact Hlast|].
  split; [|split; [|split; [|split; [|split]]]].
  - intros l1 l2 E. specialize (Hnl l1 _ E). cbn in Hnl. lia.
  - apply stripped_lines_not_blank; [|exact Hhead|exact Hlast].
    exact (clean_whitespace_gaps lines true Hf Hp).
  - intros l1 a b l2 E Ha. specialize (Hbl l1 _ E). cbn [lead] in Hbl.
    rewrite Ha in Hbl. destruct (is_blank b); [lia | reflexivity].
  - exists (join [NL] lines). split; reflexivity.
  - intros pre run post Hpre Hrun Hlen Hpost. unfold blanks_re.
    rewrite !re_sub_at_least_cls by lia.
    apply collapse_maximal_run; [lia|assumption..].
  - intros c. unfold is_blank, one_of. cbn [existsb]. rewrite orb_false_r.
    rewrite orb_true_iff, !N.eqb_eq. split; intros [H|H]; auto.
Qed.

End NumericBlocks.

Section WhitespaceExamples.
#[local] Existing Instance latin1.

(** C5, counterexample: two no-break spaces in a row, which are white space
    of a line and neither space nor tab, come out of [clean_text] as they
    went in. *)
Lemma clean_text_keeps_no_break_spaces :
  clean_text (py "Abstract a" ++ [NBSP; NBSP] ++ py "b")
  = Ok (py "Abstract a" ++ [NBSP; NBSP] ++ py "b")
  /\ is_space NBSP = true
  /\ is_linebreak NBSP = false
  /\ is_blank NBSP = false.
Proof. repeat split; vm_compute; reflexivity. Qed.

End WhitespaceExamples.

(** ** Documents *)

Section Documents.
Context {U : UnicodeDB}.



End Documents.








(** ** The start of the main content *)

Section MainStart.
Context {U : UnicodeDB}.

(** C3, as the code has it.  With no match of [abstract] and none of
    [introduction], [find_main_start] returns the text from offset 1000 on;
    for a text of at most 1000 characters that is the empty string, not the
    whole text.  Nothing in it can raise. *)
Theorem find_main_start_fallback (text : str) :
  re_search abstract_re text = None ->
  re_search introduction_re text = None ->
  find_main_start text = skipn 1000 text
  /\ ((length text <= 1000)%nat -> find_main_start text = []).
Proof.
  intros Ha Hi. unfold find_main_start. rewrite Ha, Hi.
  split; [reflexivity|]. intros Hlen. apply skipn_all2. exact Hlen.
Qed.

End MainStart.

Section MainStartExamples.
#[local] Existing Instance latin1.

Lemma find_main_start_fallback_witness :
  re_search abstract_re (py "Title page") = None
  /\ re_search introduction_re (py "Title page") = None
  /\ find_main_start (py "Title page") = skipn 1000 (py "Title page")
  /\ ((length (py "Title page") <= 1000)%nat ->
      find_main_start (py "Title page") = []).
Proof.
  split; [vm_compute; reflexivity|].
  split; [vm_compute; reflexivity|].
  apply (find_main_start_fallback (py "Title page")); vm_compute; reflexivity.
Defined.

(** C3, counterexample: a ten-character text without either keyword comes
    back empty, not whole. *)
Lemma find_main_start_short_text :
  re_search abstract_re (py "Title page") = None
  /\ re_search introduction_re (py "Title page") = None
  /\ (length (py "Title page") <? 1000)%nat = true
  /\ find_main_start (py "Title page") = []
  /\ str_eqb (find_main_start (py "Title page")) (py "Title page") = false.
Proof. repeat split; vm_compute; reflexivity. Qed.

End MainStartExamples.

(** ** The batch *)

Section BatchFacts.
Context {U : UnicodeDB}.

Lemma main_app (l1 l2 : list (str * pdf)) :
  forall fs,
    main (l1 ++ l2) fs
    = match main l1 fs with
      | (fs', Ok _) => main l2 fs'
      | (fs', Raise e) => (fs', Raise e)
      end.
Proof.
  induction l1 as [|[name f] l1 IH]; intros fs; [reflexivity|].
  cbn [app main]. unfold bind_prog.
  destruct (process_entry name f fs) as [fs' [[]|e]]; [apply IH | reflexivity].
Qed.

(** A document that fails has written nothing. *)
Lemma process_entry_raise name f fs fs' e :
  process_entry name f fs = (fs', Raise e) -> fs' = fs.
Proof.
  unfold process_entry.
  destruct (endswith (py ".pdf") name); [|unfold ret; congruence].
  unfold bind_prog, lift.
  destruct (is_image_based_pdf f 3) as [[|]|e0]; [| |congruence].
  - unfold process_ocr_pdf, bind_prog, lift, write_file.
    destruct (ocr_pdf f) as [raw|e1]; [|congruence].
    destruct (clean_text raw) as [c|e2]; congruence.
  - unfold process_pdf, bind_prog, lift, save_clean_text_to_file, write_file.
    destruct (extract_clean_text_from_pdf f) as [c|e1]; congruence.
Qed.

(** C2, as the code has it.  The loop of [__main__] has no handler: when a
    document fails, the exception leaves the loop.  The files written are
    those of the documents before it, and no document after it is
    processed, whatever it is. *)
Theorem main_stops_at_first_failure
    (before after : list (str * pdf)) (pdf_file : str) (f : pdf)
    (fs fs1 fs2 : file_system) (e : exn) :
  main before fs = (fs1, Ok tt) ->
  process_entry pdf_file f fs1 = (fs2, Raise e) ->
  main (before ++ (pdf_file, f) :: after) fs = (fs1, Raise e).
Proof.
  intros Hb Hf. rewrite main_app, Hb. cbn [main]. unfold bind_prog.
  rewrite Hf. rewrite (process_entry_raise _ _ _ _ _ Hf). reflexivity.
Qed.

End BatchFacts.

Section BatchExamples.
#[local] Existing Instance latin1.

Lemma main_stops_at_first_failure_witness :
  main [(py "a.pdf", readable_pdf)] []
  = ([(py "cleaned_texts/a_cleaned.txt", py "Abstract of the paper")], Ok tt)
  /\ main ([(py "a.pdf", readable_pdf)]
                   ++ (py "b.pdf", unreadable_pdf) :: [(py "c.pdf", readable_pdf)]) []
     = ([(py "cleaned_texts/a_cleaned.txt", py "Abstract of the paper")],
        Raise FileDataError).
Proof.
  split; [vm_compute; reflexivity|].
  apply (main_stops_at_first_failure
           [(py "a.pdf", readable_pdf)] [(py "c.pdf", readable_pdf)]
           (py "b.pdf") unreadable_pdf []
           [(py "cleaned_texts/a_cleaned.txt", py "Abstract of the paper")]
           [(py "cleaned_texts/a_cleaned.txt", py "Abstract of the paper")]
           FileDataError);
    vm_compute; reflexivity.
Defined.

(** C2, counterexample: an unreadable first document ends the batch; the
    readable document after it, which is cleaned and saved when it is alone,
    is never processed. *)
Lemma main_aborts_on_unreadable :
  main [(py "b.pdf", unreadable_pdf); (py "c.pdf", readable_pdf)] []
  = ([], Raise FileDataError)
  /\ main [(py "c.pdf", readable_pdf)] []
     = ([(py "cleaned_texts/c_cleaned.txt", py "Abstract of the paper")], Ok tt).
Proof. split; vm_compute; reflexivity. Qed.

End BatchExamples.

(** ** The filter sequence applied twice *)

Section Twice.
Context {U : UnicodeDB}.

(** C6, as the code has it.  The sequence is not idempotent in general: the
    white-space clean-up that ends a pass can build a match for an earlier
    filter.  When filters 1 to 7 find nothing to change in the text cleaned
    once, the second pass returns it as it is, since the white-space
    clean-up is idempotent. *)
Theorem noise_filters_twice_settled (text out : str) :
  noise_filters text = Ok out ->
  early_filters out = Ok out ->
  noise_filters_twice text = Ok out.
Proof.
  intros H1 H2. unfold noise_filters_twice. rewrite H1. cbn [bind].
  rewrite noise_filters_split, H2. cbn [bind].
  rewrite noise_filters_split in H1.
  destruct (early_filters text) as [t|e]; cbn [bind] in H1; [|discriminate].
  injection H1 as <-. rewrite clean_whitespace_idem. reflexivity.
Qed.

End Twice.

Section TwiceExamples.
#[local] Existing Instance latin1.

Lemma noise_filters_twice_settled_witness :
  noise_filters (py "Results  were good") = Ok (py "Results were good")
  /\ early_filters (py "Results were good") = Ok (py "Results were good")
  /\ noise_filters_twice (py "Results  were good") = Ok (py "Results were good").
Proof.
  split; [vm_compute; reflexivity|].
  split; [vm_compute; reflexivity|].
  apply (noise_filters_twice_settled (py "Results  were good") (py "Results were good"));
    vm_compute; reflexivity.
Defined.

(** C6, counterexample: with two spaces, "Page  1" is no page marker; the
    first pass collapses them and returns "Page 1", which the second pass
    removes as a page marker. *)
Lemma noise_filters_not_idempotent :
  noise_filters (py "Page  1") = Ok (py "Page 1")
  /\ noise_filters_twice (py "Page  1") = Ok [].
Proof. split; vm_compute; reflexivity. Qed.

End TwiceExamples.

(** ** Citations *)

Section Citations.
Context {U : UnicodeDB}.

Lemma scan_first_class (p : char -> bool) (r : regex) :
  forall s b, existsb p s = false ->
    scan (Seq (Cls p) r) 0 b s = map Lit s.
Proof.
  induction s as [|c t IH]; intros b H; [reflexivity|].
  simpl in H. apply orb_false_elim in H as [Hc Ht].
  cbn [scan map]. unfold match_at. cbn [m]. rewrite Hc. f_equal. apply IH, Ht.
Qed.

Lemma emit_lits repl s : flat_map (emit repl) (map Lit s) = s.
Proof. induction s as [|c t IH]; [reflexivity|]. simpl. f_equal. exact IH. Qed.

Lemma bracket_rule_needs_bracket (text : str) :
  existsb (N.eqb (ch "[")) text = false ->
  re_sub bracket_citation_re [] text = text.
Proof.
  intros H. unfold re_sub, sub_from, bracket_citation_re. cbn [seqs].
  unfold chr at 1. rewrite scan_first_class by exact H. apply emit_lits.
Qed.

End Citations.

Section CitationExamples.
#[local] Existing Instance latin1.

(** C8, as the code has it.  The bracketed rule only removes groups that
    open with a square bracket: under any Unicode tables it leaves a text
    without one as it is, the example with its parenthesized citation too.
    The bare rule then removes [Smith et al., 2020] and nothing else, so
    both parentheses stay: the result is "as shown () the effect...". *)
Theorem citation_rules_on_parentheses :
  (forall (V : UnicodeDB) (text : str),
      existsb (N.eqb (ch "[")) text = false ->
      @re_sub V (@bracket_citation_re V) [] text = text)
  /\ re_sub bracket_citation_re [] (py "as shown (Smith et al., 2020) the effect...")
     = py "as shown (Smith et al., 2020) the effect..."
  /\ re_sub bare_citation_re []
       (re_sub bracket_citation_re [] (py "as shown (Smith et al., 2020) the effect..."))
     = py "as shown () the effect...".
Proof.
  split; [intros V text; apply bracket_rule_needs_bracket|].
  split; vm_compute; reflexivity.
Qed.

Lemma citation_rules_on_parentheses_witness :
  existsb (N.eqb (ch "[")) (py "as shown (Doe et al., 1999)") = false
  /\ re_sub bracket_citation_re [] (py "as shown (Doe et al., 1999)")
     = py "as shown (Doe et al., 1999)".
Proof.
  split; [reflexivity|].
  apply (proj1 citation_rules_on_parentheses latin1 (py "as shown (Doe et al., 1999)")).
  reflexivity.
Defined.

(** C8, counterexample: the two rules do not leave "as shown ( the
    effect...". *)
Lemma citation_rules_keep_closing_parenthesis :
  str_eqb
    (re_sub bare_citation_re []
       (re_sub bracket_citation_re [] (py "as shown (Smith et al., 2020) the effect...")))
    (py "as shown ( the effect...") = false
  /\ re_sub bare_citation_re []
       (re_sub bracket_citation_re [] (py "as shown (Smith et al., 2020) the effect..."))
     = py "as shown () the effect...".
Proof. split; vm_compute; reflexivity. Qed.

End CitationExamples.

(** ** Short numeric runs *)

Section NumericExamples.
#[local] Existing Instance latin1.

(** C1, the code at the failing inputs.  A run of two numeric-like lines
    between two lines of prose is dropped, and so is a run of one: the
    filter appends a line only when the counter is zero. *)
Theorem remove_numeric_blocks_drops_short_runs :
  remove_numeric_blocks
    (py "intro" ++ [NL] ++ py "1.5 2.5" ++ [NL] ++ py "3.5 4.5%" ++ [NL] ++ py "outro")
  = Ok (py "intro" ++ [NL] ++ py "outro")
  /\ remove_numeric_blocks (py "intro" ++ [NL] ++ py "1.5 2.5" ++ [NL] ++ py "outro")
     = Ok (py "intro" ++ [NL] ++ py "outro").
Proof. split; vm_compute; reflexivity. Qed.

End NumericExamples.

(** ** The trailing sections *)

Section Trailing.
Context {U : UnicodeDB}.

Lemma m_seqs_cls (k : cont) :
  forall ps b s,
    m (seqs (map Cls ps)) k b s
    = if match_classes ps s
      then k (adv b (firstn (length ps) s)) (skipn (length ps) s)
      else None.
Proof.
  induction ps as [|p ps IH]; intros b s; [reflexivity|].
  destruct ps as [|p' ps].
  - cbn. destruct s as [|c t]; [reflexivity|].
    rewrite andb_true_r. reflexivity.
  - change (seqs (map Cls (p :: p' :: ps)))
      with (Seq (Cls p) (seqs (map Cls (p' :: ps)))).
    cbn [m]. destruct s as [|c t]; [reflexivity|].
    cbn [match_classes]. destruct (p c); [|reflexivity].
    rewrite IH. reflexivity.
Qed.

Lemma m_ilit (word : string) (k : cont) b s :
  m (ilit word) k b s
  = if match_classes (map ieq (py word)) s
    then k (adv b (firstn (length (py word)) s)) (skipn (length (py word)) s)
    else None.
Proof.
  unfold ilit, ichr. rewrite <- (map_map ieq Cls), m_seqs_cls, length_map.
  reflexivity.
Qed.

Lemma lead_any s : lead (fun _ => true) s = length s.
Proof. induction s as [|c t IH]; simpl; [|rewrite IH]; reflexivity. Qed.

Lemma m_boundary_rest b s :
  m (Seq WordB (Star any)) fin b s = if at_boundary b s then Some [] else None.
Proof.
  change (m (Seq WordB (Star any)) fin b s)
    with (if at_boundary b s then m (Star any) fin b s else None).
  destruct (at_boundary b s); [|reflexivity].
  unfold any. rewrite m_star_cls, star_cls_fin, lead_any, skipn_all. reflexivity.
Qed.

Lemma m_title (word : string) b s :
  at_boundary b s = true ->
  m (ilit word) (m (Seq WordB (Star any)) fin) b s
  = if word_at word b s then Some [] else None.
Proof.
  intros Hb. rewrite m_ilit. unfold word_at. rewrite Hb. cbn [andb].
  destruct (match_classes (map ieq (py word)) s); [|reflexivity].
  rewrite m_boundary_rest. reflexivity.
Qed.

Lemma m_trailing b s :
  m trailing_re fin b s = if trailing_title_at b s then Some [] else None.
Proof.
  unfold trailing_re, trailing_title_at.
  change (seqs [WordB;
                Alt (ilit "references") (Alt (ilit "acknowledgements") (ilit "appendix"));
                WordB; Star any])
    with (Seq WordB
            (Seq (Alt (ilit "references")
                      (Alt (ilit "acknowledgements") (ilit "appendix")))
                 (Seq WordB (Star any)))).
  set (k := m (Seq WordB (Star any)) fin).
  change (m (Seq WordB
               (Seq (Alt (ilit "references")
                         (Alt (ilit "acknowledgements") (ilit "appendix")))
                    (Seq WordB (Star any)))) fin b s)
    with (if at_boundary b s
          then or_else (m (ilit "references") k b s)
                 (or_else (m (ilit "acknowledgements") k b s)
                          (m (ilit "appendix") k b s))
          else None).
  subst k. destruct (at_boundary b s) eqn:Hb.
  - rewrite !m_title by exact Hb.
    destruct (word_at "references" b s); [reflexivity|].
    destruct (word_at "acknowledgements" b s); [reflexivity|].
    destruct (word_at "appendix" b s); reflexivity.
  - unfold word_at. rewrite Hb. reflexivity.
Qed.

Lemma title_not_at_end b : trailing_title_at b [] = false.
Proof.
  unfold trailing_title_at, word_at. cbn [py list_ascii_of_string map match_classes].
  rewrite !andb_false_r. reflexivity.
Qed.

Lemma scan_skip_all (r : regex) :
  (forall b, match_at r b [] = None) ->
  forall t b, scan r (length t) b t = [].
Proof.
  intros Hend. induction t as [|c t IH]; intros b.
  - cbn [length scan]. rewrite Hend. reflexivity.
  - cbn [length scan]. apply IH.
Qed.

Lemma sub_trailing :
  forall s b, sub_from trailing_re [] b s = cut_at_title b s.
Proof.
  assert (Hend : forall b, match_at trailing_re b [] = None).
  { intros b. unfold match_at. rewrite m_trailing, title_not_at_end. reflexivity. }
  unfold sub_from.
  induction s as [|c t IH]; intros b.
  - cbn [scan cut_at_title]. rewrite Hend, title_not_at_end. reflexivity.
  - cbn [scan cut_at_title]. unfold match_at at 1. rewrite m_trailing.
    destruct (trailing_title_at b (c :: t)).
    + cbn [length Nat.sub]. rewrite scan_skip_all by (apply Hend). reflexivity.
    + cbn [flat_map emit app]. f_equal. apply IH.
Qed.

Lemma cut_at_title_spec :
  forall s b,
    exists removed,
      s = cut_at_title b s ++ removed
      /\ (removed = [] \/ trailing_title_at (adv b (cut_at_title b s)) removed = true)
      /\ (forall l1 l2, cut_at_title b s = l1 ++ l2 -> l2 <> [] ->
                        trailing_title_at (adv b l1) (l2 ++ removed) = false).
Proof.
  induction s as [|c t IH]; intros b.
  - exists []. cbn [cut_at_title]. rewrite title_not_at_end.
    split; [reflexivity|]. split; [left; reflexivity|].
    intros l1 l2 E Hne. symmetry in E. apply app_eq_nil in E as [_ E]. contradiction.
  - cbn [cut_at_title]. destruct (trailing_title_at b (c :: t)) eqn:Ht.
    + exists (c :: t). split; [reflexivity|]. split; [right; exact Ht|].
      intros l1 l2 E Hne. symmetry in E. apply app_eq_nil in E as [_ E]. contradiction.
    + destruct (IH (Some c)) as [removed [E [Hr Hfirst]]].
      exists removed. split; [cbn [app]; f_equal; exact E|].
      split; [exact Hr|].
      intros l1 l2 E' Hne. destruct l1 as [|x l1]; cbn [app] in E'.
      * subst l2. cbn [app adv fold_left]. rewrite <- E. exact Ht.
      * injection E' as <- E'. apply (Hfirst l1 l2 E' Hne).
Qed.

(** C9. [clean_text] cuts the text at the first place where a whole word
    [references], [acknowledgements] or [appendix] starts, letter case
    ignored: what is removed runs from that word, included, to the end of
    the text, nothing is removed when there is no such word, and no such
    word starts before the cut.  The text that is cut is the one
    [find_main_start] returned, not the original. *)
Theorem trailing_sections_truncated (text : str) :
  (exists removed,
      text = re_sub trailing_re [] text ++ removed
      /\ (removed = []
          \/ trailing_title_at (adv None (re_sub trailing_re [] text)) removed = true)
      /\ (forall l1 l2, re_sub trailing_re [] text = l1 ++ l2 -> l2 <> [] ->
                        trailing_title_at (adv None l1) (l2 ++ removed) = false))
  /\ clean_text text = noise_filters (re_sub trailing_re [] (find_main_start text)).
Proof.
  split; [|reflexivity].
  unfold re_sub. rewrite sub_trailing. apply cut_at_title_spec.
Qed.

End Trailing.

(** * Further properties of the module *)

(** ** Texts with characters left out *)

Section Sublists.
Context {A : Type}.
Implicit Types a b c : list A.

Lemma sublist_refl a : sublist a a.
Proof. induction a; constructor; assumption. Qed.

Lemma sublist_nil_l a : sublist [] a.
Proof. induction a; constructor; assumption. Qed.

Lemma sublist_trans b c : sublist b c -> forall a, sublist a b -> sublist a c.
Proof.
  induction 1 as [|x b c Hbc IH|x b c Hbc IH]; intros a Hab.
  - exact Hab.
  - inversion Hab; subst; constructor; apply IH; assumption.
  - constructor. apply IH. exact Hab.
Qed.

Lemma sublist_app a b c d : sublist a b -> sublist c d -> sublist (a ++ c) (b ++ d).
Proof.
  induction 1; intros Hcd; cbn [app]; [exact Hcd | |]; constructor; auto.
Qed.

Lemma sublist_app_r a b : sublist a (a ++ b).
Proof.
  rewrite <- (app_nil_r a) at 1. apply sublist_app; [apply sublist_refl | apply sublist_nil_l].
Qed.

Lemma sublist_app_l a b : sublist b (a ++ b).
Proof.
  change b with ([] ++ b) at 1. apply sublist_app; [apply sublist_nil_l | apply sublist_refl].
Qed.

Lemma sublist_skipn n a : sublist (skipn n a) a.
Proof.
  rewrite <- (firstn_skipn n a) at 2. apply sublist_app_l.
Qed.

Lemma sublist_filter (f : A -> bool) a : sublist (filter f a) a.
Proof.
  induction a as [|x a IH]; cbn [filter]; [constructor|].
  destruct (f x); constructor; exact IH.
Qed.

Lemma sublist_filter_mono (f : A -> bool) a b :
  sublist a b -> sublist (filter f a) (filter f b).
Proof.
  induction 1 as [|x a b H IH|x a b H IH]; cbn [filter]; [constructor| |];
    destruct (f x); try constructor; exact IH.
Qed.

Lemma sublist_length a b : sublist a b -> (length a <= length b)%nat.
Proof. induction 1; simpl; lia. Qed.

Lemma sublist_of_nil a : sublist a [] -> a = [].
Proof. inversion 1. reflexivity. Qed.

End Sublists.

Lemma sublist_join (sep : str) (ls1 ls2 : list str) :
  sublist ls1 ls2 -> sublist (join sep ls1) (join sep ls2).
Proof.
  induction 1 as [|x a b H IH|x a b H IH].
  - constructor.
  - rewrite !join_cons. apply sublist_app; [apply sublist_refl|].
    destruct a as [|a0 a]; [apply sublist_nil_l|].
    destruct b as [|b0 b]; [inversion H|].
    apply sublist_app; [apply sublist_refl | exact IH].
  - rewrite join_cons. destruct b as [|b0 b].
    + apply sublist_of_nil in H. subst a. apply sublist_nil_l.
    + eapply sublist_trans; [|exact IH].
      eapply sublist_trans; apply sublist_app_l.
Qed.

Lemma sublist_concat_map (f : str -> str) (ls1 ls2 : list str) :
  sublist ls1 ls2 -> sublist (concat (map f ls1)) (concat (map f ls2)).
Proof.
  induction 1 as [|x a b H IH|x a b H IH]; cbn [map concat].
  - constructor.
  - apply sublist_app; [apply sublist_refl | exact IH].
  - eapply sublist_trans; [apply sublist_app_l | exact IH].
Qed.

Lemma dedup_sublist : forall lines prev, sublist (dedup prev lines) lines.
Proof.
  induction lines as [|line rest IH]; intros prev; cbn [dedup]; [constructor|].
  destruct (negb (str_eqb (strip line) (strip prev))); constructor; apply IH.
Qed.

Section Deletions.
Context {U : UnicodeDB}.

(** A substitution by the empty string only takes characters out. *)
Lemma scan_deletes (r : regex) :
  forall s skip b, sublist (flat_map (emit []) (scan r skip b s)) s.
Proof.
  induction s as [|c t IH]; intros skip b.
  - destruct skip; cbn [scan]; [|constructor].
    destruct (match_at r b []) as [[|n]|]; constructor.
  - destruct skip as [|n]; cbn [scan].
    + destruct (match_at r b (c :: t)) as [[|n]|]; cbn [flat_map emit app].
      * constructor. apply IH.
      * constructor. apply IH.
      * constructor. apply IH.
    + constructor. apply IH.
Qed.

Lemma re_sub_deletes (r : regex) (text : str) : sublist (re_sub r [] text) text.
Proof. apply scan_deletes. Qed.

Lemma tabular_loop_spec :
  forall lines cleaned,
    tabular_loop lines cleaned
    = cleaned ++ filter (fun l => negb (tabular_line l)) lines.
Proof.
  induction lines as [|line rest IH]; intros cleaned; cbn [tabular_loop filter].
  - rewrite app_nil_r. reflexivity.
  - fold (tabular_line line). destruct (tabular_line line); cbn [negb]; rewrite IH;
      [|rewrite <- app_assoc]; reflexivity.
Qed.

Lemma remove_tabular_blocks_spec (text : str) :
  remove_tabular_blocks text
  = join [NL] (filter (fun l => negb (tabular_line l)) (split NL text)).
Proof. unfold remove_tabular_blocks. rewrite tabular_loop_spec. reflexivity. Qed.

Lemma line_filter_deletes (keep : str -> bool) (text : str) :
  sublist (join [NL] (filter keep (split NL text))) text.
Proof.
  rewrite <- (join_split text) at 2. apply sublist_join, sublist_filter.
Qed.

Lemma remove_headers_footers_sublist (text : str) :
  sublist (remove_headers_footers text) text.
Proof.
  unfold remove_headers_footers.
  repeat (eapply sublist_trans; [|apply re_sub_deletes]).
  apply sublist_refl.
Qed.

(** X1. The header and footer filter only takes characters out of its
    input: what it returns is the input with some characters left out, none
    added, none moved; so it is never longer than the input. *)
Theorem remove_headers_footers_only_deletes (text : str) :
  sublist (remove_headers_footers text) text
  /\ (length (remove_headers_footers text) <= length text)%nat.
Proof.
  pose proof (remove_headers_footers_sublist text) as H.
  split; [exact H | apply sublist_length, H].
Qed.

End Deletions.

(** ** What the pipeline keeps of the visible characters *)

Lemma linebreak_is_space c : is_linebreak c = true -> is_space c = true.
Proof.
  unfold is_linebreak, is_space, in_range, one_of. cbn [existsb].
  rewrite !orb_false_r. intros H.
  repeat match type of H with
         | (_ || _) = true => apply orb_prop in H as [H|H]
         end.
  - apply andb_prop in H as [H1 H2]. apply N.leb_le in H1, H2.
    replace ((9 <=? c)%N && (c <=? 13)%N) with true; [reflexivity|].
    symmetry. apply andb_true_intro. split; apply N.leb_le; lia.
  - apply andb_prop in H as [H1 H2]. apply N.leb_le in H1, H2.
    replace ((28 <=? c)%N && (c <=? 32)%N) with true;
      [rewrite orb_true_r; reflexivity|].
    symmetry. apply andb_true_intro. split; apply N.leb_le; lia.
  - apply N.eqb_eq in H. subst c. reflexivity.
  - apply N.eqb_eq in H. subst c. reflexivity.
  - apply N.eqb_eq in H. subst c. reflexivity.
Qed.

Lemma visible_app a b : visible (a ++ b) = visible a ++ visible b.
Proof. apply filter_app. Qed.

Lemma visible_all_space a : forallb is_space a = true -> visible a = [].
Proof.
  induction a as [|c a IH]; [reflexivity|]. cbn [forallb visible filter].
  intros H. apply andb_prop in H as [-> Ha]. exact (IH Ha).
Qed.

Lemma visible_join (lines : list str) :
  visible (join [NL] lines) = concat (map visible lines).
Proof.
  induction lines as [|l rest IH]; [reflexivity|].
  rewrite join_cons, visible_app. cbn [map concat]. f_equal.
  destruct rest as [|l2 rest]; [reflexivity|].
  rewrite visible_app, IH. reflexivity.
Qed.

Lemma visible_splitlines_bounded :
  forall n text, (length text <= n)%nat ->
    concat (map visible (splitlines text)) = visible text.
Proof.
  induction n as [|n IH]; intros text Hn.
  - destruct text; [reflexivity | simpl in Hn; lia].
  - destruct text as [|c t]; [reflexivity|]. simpl in Hn.
    cbn [splitlines]. destruct (is_linebreak c) eqn:Ec.
    + pose proof (linebreak_is_space c Ec) as Hc.
      cbn [map concat visible filter app]. rewrite Hc. cbn [negb].
      destruct t as [|c2 t2]; [reflexivity|].
      destruct ((c =? CR)%N && (c2 =? NL)%N) eqn:E.
      * apply andb_prop in E as [_ E2]. apply N.eqb_eq in E2. subst c2.
        rewrite IH by (simpl in *; lia). reflexivity.
      * apply IH. simpl in *. lia.
    + specialize (IH t ltac:(lia)).
      assert (Hsp : forall x, visible (c :: x)
                     = (if is_space c then [] else [c]) ++ visible x).
      { intros x. cbn [visible filter]. destruct (is_space c); reflexivity. }
      rewrite Hsp, <- IH.
      destruct (splitlines t) as [|l ls]; cbn [map concat].
      * rewrite Hsp. cbn [visible filter]. rewrite !app_nil_r. reflexivity.
      * rewrite Hsp, <- app_assoc. reflexivity.
Qed.

Lemma visible_splitlines text : concat (map visible (splitlines text)) = visible text.
Proof. apply (visible_splitlines_bounded (length text)). lia. Qed.

Lemma visible_collapse (p : char -> bool) (n : nat) (repl : str) :
  (forall c, p c = true -> is_space c = true) ->
  forallb is_space repl = true ->
  forall s dropping, visible (collapse p n repl dropping s) = visible s.
Proof.
  intros Hp Hrepl. induction s as [|c t IH]; intros dropping; [reflexivity|].
  cbn [collapse]. destruct (p c) eqn:Ec.
  - assert (Hc : visible (c :: t) = visible t).
    { cbn [visible filter]. rewrite (Hp c Ec). reflexivity. }
    rewrite Hc. destruct dropping; [apply IH|].
    destruct (n <=? lead p (c :: t))%nat.
    + rewrite visible_app, (visible_all_space repl Hrepl). apply IH.
    + rewrite <- Hc. cbn [visible filter]. fold (visible t).
      fold (visible (collapse p n repl false t)). rewrite IH. reflexivity.
  - cbn [visible filter]. fold (visible t).
    fold (visible (collapse p n repl false t)). rewrite IH. reflexivity.
Qed.

Lemma visible_strip s : visible (strip s) = visible s.
Proof.
  destruct (strip_infix s) as [l1 [l2 [E [H1 H2]]]].
  rewrite E at 2. rewrite !visible_app.
  rewrite (visible_all_space l1 H1), (visible_all_space l2 H2), app_nil_r.
  reflexivity.
Qed.

Section OnlyDeletes.
Context {U : UnicodeDB}.

Lemma visible_clean_whitespace text : visible (clean_whitespace text) = visible text.
Proof.
  rewrite clean_whitespace_eq, visible_strip.
  rewrite visible_collapse;
    [|intros c Hc; apply (blank_is_space c Hc)|reflexivity].
  apply visible_collapse; [|reflexivity].
  intros c Hc. apply is_nl_space, Hc.
Qed.

Lemma early_filters_visible (text : str) :
  exists out,
    early_filters text = Ok out /\ sublist (visible out) (visible text).
Proof.
  unfold early_filters. rewrite remove_numeric_blocks_spec. cbn [bind].
  eexists. split; [reflexivity|].
  rewrite dedup_loop_spec. cbn [app].
  rewrite visible_join.
  eapply sublist_trans;
    [|apply sublist_concat_map, dedup_sublist].
  rewrite visible_splitlines. apply sublist_filter_mono.
  eapply sublist_trans; [|apply remove_headers_footers_sublist].
  rewrite remove_tabular_blocks_spec.
  eapply sublist_trans; [|apply line_filter_deletes].
  eapply sublist_trans; [|apply line_filter_deletes].
  do 5 (eapply sublist_trans; [|apply re_sub_deletes]).
  apply re_sub_deletes.
Qed.

(** X2. [clean_text] adds no visible character and moves none: the
    characters of its result that are not white space are characters of the
    input, in the order they have there, with some left out. *)
Theorem clean_text_only_deletes (text : str) :
  exists out,
    clean_text text = Ok out
    /\ sublist (visible out) (visible text).
Proof.
  unfold clean_text. rewrite noise_filters_split.
  destruct (early_filters_visible (re_sub trailing_re [] (find_main_start text)))
    as [t [-> Ht]].
  cbn [bind]. eexists. split; [reflexivity|].
  rewrite visible_clean_whitespace.
  eapply sublist_trans; [|exact Ht].
  apply sublist_filter_mono.
  eapply sublist_trans; [|apply re_sub_deletes].
  unfold find_main_start.
  destruct (re_search abstract_re text); [apply sublist_skipn|].
  destruct (re_search introduction_re text); apply sublist_skipn.
Qed.

End OnlyDeletes.

(** ** The line filters *)

Lemma is_nl_false c : c <> NL -> is_nl c = false.
Proof. intros H. unfold is_nl. destruct (N.eqb_spec NL c); [congruence | reflexivity]. Qed.

Lemma split_nl_free text : Forall (fun l => nl_free l = true) (split NL text).
Proof.
  induction text as [|c t IH]; [repeat constructor|].
  cbn [split]. destruct (N.eqb_spec c NL) as [->|Hc].
  - constructor; [reflexivity | exact IH].
  - destruct (split NL t) as [|l ls].
    + repeat constructor. cbn [nl_free forallb]. rewrite (is_nl_false c Hc). reflexivity.
    + inversion IH as [|? ? Hl Hls]; subst. constructor; [|exact Hls].
      cbn [nl_free forallb]. fold (nl_free l). rewrite Hl, (is_nl_false c Hc).
      reflexivity.
Qed.

Lemma split_line_then (line rest : str) :
  nl_free line = true -> split NL (line ++ NL :: rest) = line :: split NL rest.
Proof.
  induction line as [|c line IH]; intros H.
  - reflexivity.
  - cbn [nl_free forallb] in H. apply andb_prop in H as [Hc Hl].
    cbn [app split]. rewrite (IH Hl).
    unfold is_nl in Hc. destruct (N.eqb_spec c NL) as [->|]; [discriminate|reflexivity].
Qed.

Lemma split_one_line (line : str) : nl_free line = true -> split NL line = [line].
Proof.
  induction line as [|c line IH]; intros H; [reflexivity|].
  cbn [nl_free forallb] in H. apply andb_prop in H as [Hc Hl].
  cbn [split]. rewrite (IH Hl).
  unfold is_nl in Hc. destruct (N.eqb_spec c NL) as [->|]; [discriminate|reflexivity].
Qed.

Lemma split_join (lines : list str) :
  Forall (fun l => nl_free l = true) lines -> lines <> [] ->
  split NL (join [NL] lines) = lines.
Proof.
  induction lines as [|l rest IH]; intros Hf Hne; [congruence|].
  inversion Hf as [|? ? Hl Hrest]; subst.
  destruct rest as [|l2 rest].
  - apply split_one_line, Hl.
  - change (join [NL] (l :: l2 :: rest)) with (l ++ NL :: join [NL] (l2 :: rest)).
    rewrite (split_line_then _ _ Hl), IH; [reflexivity | exact Hrest | discriminate].
Qed.

Lemma filter_idem {A} (f : A -> bool) (l : list A) : filter f (filter f l) = filter f l.
Proof.
  induction l as [|x l IH]; [reflexivity|]. cbn [filter].
  destruct (f x) eqn:E; [cbn [filter]; rewrite E, IH|]; auto.
Qed.

(** Filtering the lines of a text, for a test that lets the empty line
    through: what is left passes the test, and filtering again changes
    nothing. *)
Lemma line_filter_lines (keep : str -> bool) (text : str) :
  keep [] = true ->
  (forall line, In line (split NL (join [NL] (filter keep (split NL text)))) ->
                keep line = true)
  /\ join [NL] (filter keep (split NL (join [NL] (filter keep (split NL text)))))
     = join [NL] (filter keep (split NL text)).
Proof.
  intros Hnil.
  assert (Hf : Forall (fun l => nl_free l = true) (filter keep (split NL text))).
  { apply Forall_forall. intros l Hl. apply filter_In in Hl as [Hl _].
    revert l Hl. apply Forall_forall, split_nl_free. }
  destruct (filter keep (split NL text)) as [|l ls] eqn:E.
  - cbn [join split]. split.
    + intros line [<-|[]]. exact Hnil.
    + cbn [filter]. rewrite Hnil. reflexivity.
  - rewrite (split_join _ Hf) by discriminate. split.
    + intros line Hl. rewrite <- E in Hl. apply filter_In in Hl. apply Hl.
    + rewrite <- E, filter_idem. reflexivity.
Qed.

Lemma has_run_false_iff (p : char -> bool) (n : nat) :
  (0 < n)%nat ->
  forall s, has_run p n s = false <-> runs_below p n s.
Proof.
  intros Hn. induction s as [|c t IH].
  - split; [intros _; apply runs_below_nil; exact Hn | reflexivity].
  - cbn [has_run]. rewrite runs_below_cons, <- IH. split.
    + intros H. apply orb_false_elim in H as [H1 H2].
      apply Nat.leb_gt in H1. split; assumption.
    + intros [H1 H2]. apply Nat.leb_gt in H1. rewrite H1, H2. reflexivity.
Qed.

Section LineFilters.
Context {U : UnicodeDB}.

Lemma numeric_like_empty_line : numeric_like_b [] = false.
Proof. reflexivity. Qed.

(** X3. [remove_numeric_blocks] returns the lines of the text that are not
    numeric-like, in their order, joined by newlines: no numeric-like line
    is among the lines of the result, whatever the length of the run it was
    in.  Applied to its own result it changes nothing. *)
Theorem remove_numeric_blocks_lines (text : str) :
  exists out,
    remove_numeric_blocks text = Ok out
    /\ out = join [NL] (filter (fun l => negb (numeric_like_b l)) (split NL text))
    /\ (forall line, In line (split NL out) -> numeric_like_b line = false)
    /\ remove_numeric_blocks out = Ok out.
Proof.
  rewrite remove_numeric_blocks_spec. eexists. split; [reflexivity|].
  split; [reflexivity|].
  destruct (line_filter_lines (fun l => negb (numeric_like_b l)) text) as [Hin Hidem].
  { rewrite numeric_like_empty_line. reflexivity. }
  split.
  - intros line Hl. apply Hin in Hl. destruct (numeric_like_b line); [discriminate|reflexivity].
  - rewrite remove_numeric_blocks_spec, Hidem. reflexivity.
Qed.

Lemma findall_at_least_cls (p : char -> bool) (n : nat) :
  (1 <= n)%nat ->
  forall s b,
    (1 <=? length (flat_map hit (scan (at_least n (Cls p)) 0 b s)))%nat
    = has_run p n s.
Proof.
  intros Hn. induction s as [|c t IH]; intros b.
  - cbn [scan]. rewrite match_at_least_cls. cbn [lead].
    destruct (Nat.leb_spec n 0); [lia | reflexivity].
  - cbn [scan has_run]. rewrite match_at_least_cls.
    destruct (Nat.leb_spec n (lead p (c :: t))) as [Hle|Hlt].
    + destruct (lead p (c :: t)) as [|k] eqn:El; [lia|]. reflexivity.
    + cbn [flat_map hit app orb]. apply IH.
Qed.

Lemma tabular_line_eq (line : str) :
  tabular_line line = has_run is_space 3 line || (2 <=? count TAB line)%nat.
Proof.
  unfold tabular_line, re_findall, tabular_re, s_.
  rewrite findall_at_least_cls by lia. reflexivity.
Qed.

(** X4. [remove_tabular_blocks] keeps, in their order, the lines that hold
    no three white-space characters in a row and fewer than two tabs, and
    drops the others.  Every line of its result is such a line, and applied
    to its own result it changes nothing. *)
Theorem remove_tabular_blocks_lines (text : str) :
  remove_tabular_blocks text
  = join [NL] (filter (fun l => negb (has_run is_space 3 l) && (count TAB l <? 2)%nat)
                      (split NL text))
  /\ (forall line, In line (split NL (remove_tabular_blocks text)) ->
                   runs_below is_space 3 line /\ (count TAB line < 2)%nat)
  /\ remove_tabular_blocks (remove_tabular_blocks text) = remove_tabular_blocks text.
Proof.
  assert (Hkeep : forall l, negb (tabular_line l)
                            = negb (has_run is_space 3 l) && (count TAB l <? 2)%nat).
  { intros l. rewrite tabular_line_eq, negb_orb. f_equal.
    destruct (Nat.leb_spec 2 (count TAB l)), (Nat.ltb_spec (count TAB l) 2);
      try reflexivity; lia. }
  assert (Heq : forall t, remove_tabular_blocks t
                 = join [NL] (filter (fun l => negb (has_run is_space 3 l)
                                               && (count TAB l <? 2)%nat)
                                     (split NL t))).
  { intros t. rewrite remove_tabular_blocks_spec. f_equal.
    apply filter_ext. exact Hkeep. }
  split; [apply Heq|].
  destruct (line_filter_lines
              (fun l => negb (has_run is_space 3 l) && (count TAB l <? 2)%nat) text)
    as [Hin Hidem]; [reflexivity|].
  split.
  - intros line Hl. rewrite Heq in Hl. apply Hin in Hl.
    apply andb_prop in Hl as [H1 H2]. split.
    + apply has_run_false_iff; [lia|]. destruct (has_run is_space 3 line);
        [discriminate | reflexivity].
    + apply Nat.ltb_lt, H2.
  - rewrite (Heq (remove_tabular_blocks text)), (Heq text). exact Hidem.
Qed.

End LineFilters.

(** ** Duplicate lines *)

Lemma distinct_adj_prev (p1 p2 : str) (lines : list str) :
  strip p1 = strip p2 -> distinct_adj p1 lines = distinct_adj p2 lines.
Proof. intros E. destruct lines; cbn [distinct_adj]; [|rewrite E]; reflexivity. Qed.

Lemma dedup_distinct : forall lines prev, distinct_adj prev (dedup prev lines) = true.
Proof.
  induction lines as [|line rest IH]; intros prev; cbn [dedup]; [reflexivity|].
  destruct (str_eqb (strip line) (strip prev)) eqn:E; cbn [negb].
  - apply str_eqb_eq in E. rewrite <- (distinct_adj_prev line prev _ E). apply IH.
  - cbn [distinct_adj]. rewrite E, IH. reflexivity.
Qed.

Lemma dedup_fixed : forall lines prev, distinct_adj prev lines = true -> dedup prev lines = lines.
Proof.
  induction lines as [|line rest IH]; intros prev H; [reflexivity|].
  cbn [distinct_adj] in H. apply andb_prop in H as [H1 H2].
  cbn [dedup]. rewrite H1, (IH _ H2). reflexivity.
Qed.

Lemma distinct_adj_pairs :
  forall lines prev, distinct_adj prev lines = true ->
    forall l1 a b l2, lines = l1 ++ a :: b :: l2 -> strip a <> strip b.
Proof.
  induction lines as [|line rest IH]; intros prev H l1 a b l2 E.
  - destruct l1; discriminate.
  - cbn [distinct_adj] in H. apply andb_prop in H as [_ H].
    destruct l1 as [|x l1]; cbn [app] in E.
    + injection E as -> ->. cbn [distinct_adj] in H. apply andb_prop in H as [H _].
      intros Heq. rewrite Heq in H.
      rewrite (proj2 (str_eqb_eq (strip b) (strip b)) eq_refl) in H. discriminate.
    + injection E as _ E. exact (IH line H l1 a b l2 E).
Qed.

(** X5. The loop that collapses duplicate lines keeps lines of its input in
    their order.  The first line it keeps is not blank, two lines that
    follow each other in its result differ once stripped, and run on its
    own result it changes nothing. *)
Theorem dedup_loop_result (lines : list str) :
  sublist (dedup_loop lines [] []) lines
  /\ (forall a rest, dedup_loop lines [] [] = a :: rest -> strip a <> [])
  /\ (forall l1 a b l2, dedup_loop lines [] [] = l1 ++ a :: b :: l2 ->
                        strip a <> strip b)
  /\ dedup_loop (dedup_loop lines [] []) [] [] = dedup_loop lines [] [].
Proof.
  rewrite !dedup_loop_spec. cbn [app].
  pose proof (dedup_distinct lines []) as Hd.
  split; [apply dedup_sublist|]. split; [|split].
  - intros a rest E. rewrite E in Hd. cbn [distinct_adj] in Hd.
    apply andb_prop in Hd as [Hd _]. intros Ha. rewrite Ha in Hd. discriminate.
  - exact (distinct_adj_pairs _ _ Hd).
  - apply dedup_fixed, Hd.
Qed.

(** ** The start of the main content, when a heading is found *)

Lemma adv_cons b c l : adv b (c :: l) = adv (Some c) l.
Proof. reflexivity. Qed.

Section Search.
Context {U : UnicodeDB}.

(** [re.search] answers with the leftmost cursor where the pattern matches. *)
Lemma search_from_spec (r : regex) :
  forall s pos b,
    match search_from r pos b s with
    | Some p =>
        exists pre rest,
          s = pre ++ rest /\ p = (pos + length pre)%nat
          /\ match_at r (adv b pre) rest <> None
          /\ (forall l1 l2, pre = l1 ++ l2 -> l2 <> [] ->
                            match_at r (adv b l1) (l2 ++ rest) = None)
    | None => forall pre rest, s = pre ++ rest -> match_at r (adv b pre) rest = None
    end.
Proof.
  induction s as [|c t IH]; intros pos b.
  - cbn [search_from]. destruct (match_at r b []) eqn:E.
    + exists [], []. split; [reflexivity|]. split; [cbn [length]; lia|].
      split; [cbn [adv fold_left]; congruence|].
      intros l1 l2 H Hne. symmetry in H. apply app_eq_nil in H as [_ H]. contradiction.
    + intros pre rest H. symmetry in H. apply app_eq_nil in H as [-> ->]. exact E.
  - cbn [search_from]. destruct (match_at r b (c :: t)) eqn:E.
    + exists [], (c :: t). split; [reflexivity|]. split; [cbn [length]; lia|].
      split; [cbn [adv fold_left]; congruence|].
      intros l1 l2 H Hne. symmetry in H. apply app_eq_nil in H as [_ H]. contradiction.
    + specialize (IH (S pos) (Some c)).
      destruct (search_from r (S pos) (Some c) t) as [p|].
      * destruct IH as [pre [rest [Es [Ep [Hm Hfirst]]]]].
        exists (c :: pre), rest. rewrite adv_cons.
        split; [cbn [app]; f_equal; exact Es|].
        split; [cbn [length]; lia|]. split; [exact Hm|].
        intros l1 l2 H Hne. destruct l1 as [|x l1]; cbn [app] in H.
        -- subst l2. cbn [app adv fold_left]. rewrite <- Es. exact E.
        -- injection H as <- H. rewrite adv_cons. exact (Hfirst l1 l2 H Hne).
      * intros pre rest H. destruct pre as [|x pre]; cbn [app] in H.
        -- subst rest. exact E.
        -- injection H as <- H. rewrite adv_cons. exact (IH pre rest H).
Qed.

Lemma match_at_abstract b s :
  match_at abstract_re b s
  = if word_at "abstract" b s then Some (length s - length (skipn 8 s))%nat else None.
Proof.
  unfold match_at, abstract_re.
  change (m (seqs [WordB; ilit "abstract"; WordB]) (fun _ t => Some t) b s)
    with (if at_boundary b s then m (ilit "abstract") (m WordB fin) b s else None).
  unfold word_at. destruct (at_boundary b s); [|reflexivity]. cbn [andb].
  rewrite m_ilit. destruct (match_classes (map ieq (py "abstract")) s); [|reflexivity].
  cbn [m andb].
  destruct (at_boundary (adv b (firstn (length (py "abstract")) s))
                        (skipn (length (py "abstract")) s)); reflexivity.
Qed.

(** X6. When the text holds the whole word [abstract], in any letter case,
    [find_main_start] returns the text from the first such word on, the
    word included, whether or not an [introduction] heading comes before
    it. *)
Theorem find_main_start_at_abstract (text pre0 rest0 : str) :
  text = pre0 ++ rest0 ->
  word_at "abstract" (adv None pre0) rest0 = true ->
  exists pre rest,
    text = pre ++ rest
    /\ find_main_start text = rest
    /\ word_at "abstract" (adv None pre) rest = true
    /\ (forall l1 l2, pre = l1 ++ l2 -> l2 <> [] ->
                      word_at "abstract" (adv None l1) (l2 ++ rest) = false).
Proof.
  intros E0 H0. unfold find_main_start, re_search.
  pose proof (search_from_spec abstract_re text 0 None) as Hs.
  destruct (search_from abstract_re 0 None text) as [p|].
  - destruct Hs as [pre [rest [E [Ep [Hm Hfirst]]]]].
    exists pre, rest. split; [exact E|]. split; [|split].
    + subst p text. cbn [Nat.add]. rewrite E.
      rewrite skipn_app, skipn_all, Nat.sub_diag. reflexivity.
    + rewrite match_at_abstract in Hm.
      destruct (word_at "abstract" (adv None pre) rest); [reflexivity | congruence].
    + intros l1 l2 H Hne. specialize (Hfirst l1 l2 H Hne).
      rewrite match_at_abstract in Hfirst.
      destruct (word_at "abstract" (adv None l1) (l2 ++ rest)); [discriminate|reflexivity].
  - specialize (Hs pre0 rest0 E0). rewrite match_at_abstract, H0 in Hs. discriminate.
Qed.

(** X7. A text of at most 1000 characters in which neither heading is found
    is cleaned to the empty string: the fallback skips all of it and the
    filters have nothing left to work on. *)
Theorem clean_text_short_text (text : str) :
  re_search abstract_re text = None ->
  re_search introduction_re text = None ->
  (length text <= 1000)%nat ->
  clean_text text = Ok [].
Proof.
  intros Ha Hi Hlen. unfold clean_text, find_main_start.
  rewrite Ha, Hi, skipn_all2 by exact Hlen. reflexivity.
Qed.

(** X8. The texts the final white-space clean-up leaves as they are are
    exactly the clean ones: no white space at either end, no three newlines
    in a row, no two blanks (space, tab) in a row. *)
Theorem clean_whitespace_fixed_points (text : str) :
  clean_whitespace text = text
  <-> ((forall c t, text = c :: t -> is_space c = false)
       /\ (forall c t, text = t ++ [c] -> is_space c = false)
       /\ runs_below is_nl 3 text
       /\ runs_below is_blank 2 text).
Proof.
  split.
  - intros E. destruct (clean_whitespace_runs text) as [H1 H2].
    rewrite E in H1, H2. repeat split; try assumption.
    + intros c t Et. rewrite <- E, clean_whitespace_eq in Et. exact (strip_head _ _ _ Et).
    + intros c t Et. rewrite <- E, clean_whitespace_eq in Et. exact (strip_last _ _ _ Et).
  - intros [H1 [H2 [H3 H4]]]. apply clean_whitespace_fixed; assumption.
Qed.

End Search.

Section SearchExamples.
#[local] Existing Instance latin1.

Lemma find_main_start_at_abstract_witness :
  py "1. Introduction, then the Abstract of it"
  = py "1. Introduction, then the " ++ py "Abstract of it"
  /\ word_at "abstract" (adv None (py "1. Introduction, then the ")) (py "Abstract of it")
     = true
  /\ exists pre rest,
       py "1. Introduction, then the Abstract of it" = pre ++ rest
       /\ find_main_start (py "1. Introduction, then the Abstract of it") = rest
       /\ word_at "abstract" (adv None pre) rest = true
       /\ (forall l1 l2, pre = l1 ++ l2 -> l2 <> [] ->
                         word_at "abstract" (adv None l1) (l2 ++ rest) = false).
Proof.
  split; [reflexivity|]. split; [vm_compute; reflexivity|].
  apply (find_main_start_at_abstract
           (py "1. Introduction, then the Abstract of it")
           (py "1. Introduction, then the ") (py "Abstract of it"));
    vm_compute; reflexivity.
Defined.

Lemma clean_text_short_text_witness :
  re_search abstract_re (py "Title page") = None
  /\ re_search introduction_re (py "Title page") = None
  /\ (length (py "Title page") <= 1000)%nat
  /\ clean_text (py "Title page") = Ok [].
Proof.
  split; [vm_compute; reflexivity|]. split; [vm_compute; reflexivity|].
  split; [vm_compute; lia|].
  apply (clean_text_short_text (py "Title page")); vm_compute; [reflexivity..|lia].
Defined.

End SearchExamples.

(** ** Opening, reading and writing documents *)

Section MoreDocuments.
Context {U : UnicodeDB}.

(** X9. When the file cannot be opened, [is_image_based_pdf] raises the
    error of [fitz.open].  A document without pages, and any document when
    [check_pages] is zero or negative, is classified as image-based, since
    no page is looked at. *)
Theorem is_image_based_pdf_edges (f : pdf) (K : Z) :
  (forall e, pages f = Raise e -> is_image_based_pdf f K = Raise e)
  /\ (forall doc, pages f = Ok doc -> (K <= 0)%Z \/ doc = [] ->
                  is_image_based_pdf f K = Ok true).
Proof.
  unfold is_image_based_pdf. split.
  - intros e ->. reflexivity.
  - intros doc -> H. cbn [bind]. unfold is_image_based_doc, range, Zlen.
    replace (Z.to_nat (Z.min (Z.of_nat (length doc)) K)) with O; [reflexivity|].
    destruct H as [H| ->]; [lia | cbn [length]; lia].
Qed.

Lemma ocr_loop_ok :
  forall texts i full_text,
    ocr_loop (map Ok texts) i full_text = Ok (full_text ++ ocr_text i texts).
Proof.
  induction texts as [|t rest IH]; intros i acc; cbn [map ocr_loop ocr_text bind].
  - rewrite app_nil_r. reflexivity.
  - rewrite IH. unfold page_marker. rewrite <- !app_assoc. reflexivity.
Qed.

Lemma ocr_loop_raise :
  forall texts e rest i full_text,
    ocr_loop (map Ok texts ++ Raise e :: rest) i full_text = Raise e.
Proof.
  induction texts as [|t texts IH]; intros e rest i acc; cbn [map app ocr_loop bind].
  - reflexivity.
  - apply IH.
Qed.

(** X10. When every page image is read, [ocr_pdf] returns the page texts in
    page order, each after its marker [--- Page n ---] framed by two
    newlines on each side, pages numbered from 1; nothing separates a text
    from the next marker but these newlines. *)
Theorem ocr_pdf_text (f : pdf) (texts : list str) :
  images f = Ok (map Ok texts) ->
  ocr_pdf f = Ok (ocr_text 0 texts).
Proof.
  intros H. unfold ocr_pdf. rewrite H. cbn [bind]. apply ocr_loop_ok.
Qed.

(** X11. When reading one page image fails, [ocr_pdf] raises that error:
    the text of the pages read before it is lost and the pages after it are
    not read. *)
Theorem ocr_pdf_page_failure (f : pdf) (texts : list str) (e : exn)
    (rest : list (result str)) :
  images f = Ok (map Ok texts ++ Raise e :: rest) ->
  ocr_pdf f = Raise e.
Proof.
  intros H. unfold ocr_pdf. rewrite H. cbn [bind]. apply ocr_loop_raise.
Qed.

End MoreDocuments.

Section MoreDocumentExamples.
#[local] Existing Instance latin1.

Lemma ocr_pdf_text_witness :
  images {| pages := Ok [[]]; images := Ok [Ok (py "one"); Ok (py "two")] |}
  = Ok (map Ok [py "one"; py "two"])
  /\ ocr_pdf {| pages := Ok [[]]; images := Ok [Ok (py "one"); Ok (py "two")] |}
     = Ok (ocr_text 0 [py "one"; py "two"]).
Proof.
  split; [reflexivity|].
  apply (ocr_pdf_text
           {| pages := Ok [[]]; images := Ok [Ok (py "one"); Ok (py "two")] |}
           [py "one"; py "two"]).
  reflexivity.
Defined.

Lemma ocr_pdf_page_failure_witness :
  images {| pages := Ok [[]];
            images := Ok [Ok (py "one"); Raise TesseractError; Ok (py "three")] |}
  = Ok (map Ok [py "one"] ++ Raise TesseractError :: [Ok (py "three")])
  /\ ocr_pdf {| pages := Ok [[]];
               images := Ok [Ok (py "one"); Raise TesseractError; Ok (py "three")] |}
     = Raise TesseractError.
Proof.
  split; [reflexivity|].
  apply (ocr_pdf_page_failure
           {| pages := Ok [[]];
              images := Ok [Ok (py "one"); Raise TesseractError; Ok (py "three")] |}
           [py "one"] TesseractError [Ok (py "three")]).
  reflexivity.
Defined.

End MoreDocumentExamples.

(** ** The e-mail filter *)

Section Emails.
Context {U : UnicodeDB}.

Lemma lead_not_space_cons c t :
  not_space c = true -> lead not_space (c :: t) = S (lead not_space t).
Proof. intros H. cbn [lead]. rewrite H. reflexivity. Qed.

(** [@\S+] then the end of the match. *)
Lemma S_not_space : S_ = Cls not_space.
Proof. reflexivity. Qed.

Lemma m_at_then b s :
  m (seqs [chr (ch "@"); plus S_]) fin b s
  = if at_sign_then s then Some (skipn (lead not_space s) s) else None.
Proof.
  change (m (seqs [chr (ch "@"); plus S_]) fin b s)
    with (m (chr (ch "@")) (m S_ (m (Star S_) fin)) b s).
  rewrite S_not_space.
  destruct s as [|c [|x t]].
  - reflexivity.
  - cbn [m chr at_sign_then]. destruct (ch "@" =? c)%N; reflexivity.
  - change (m (chr (ch "@")) (m (Cls not_space) (m (Star (Cls not_space)) fin)) b
              (c :: x :: t))
      with (if (ch "@" =? c)%N
            then (if not_space x
                  then m (Star (Cls not_space)) fin (Some x) t
                  else None)
            else None).
    cbn [at_sign_then].
    destruct (N.eqb_spec (ch "@") c) as [<-|]; [|reflexivity]. cbn [andb].
    destruct (not_space x) eqn:Ex; [|reflexivity].
    rewrite m_star_cls, star_cls_fin.
    rewrite lead_not_space_cons by reflexivity.
    rewrite (lead_not_space_cons x t Ex). reflexivity.
Qed.

Lemma at_sign_then_not_space c t : at_sign_then (c :: t) = true -> not_space c = true.
Proof.
  destruct t as [|x t]; cbn [at_sign_then]; [discriminate|].
  intros H. apply andb_prop in H as [H _]. apply N.eqb_eq in H. subst c. reflexivity.
Qed.

Lemma star_then_at (b : option char) :
  forall s b',
    star_cls not_space (m (seqs [chr (ch "@"); plus S_]) fin) b' s
    = if inner_at s then Some (skipn (lead not_space s) s) else None.
Proof.
  induction s as [|c t IH]; intros b'.
  - cbn [star_cls]. rewrite m_at_then. reflexivity.
  - cbn [star_cls inner_at]. rewrite m_at_then, IH.
    destruct (not_space c) eqn:Ec; cbn [andb].
    + rewrite (lead_not_space_cons c t Ec). cbn [skipn].
      destruct (inner_at t); cbn [or_else]; [rewrite orb_true_r; reflexivity|].
      rewrite orb_false_r. reflexivity.
    + destruct (at_sign_then (c :: t)) eqn:E; [|reflexivity].
      apply at_sign_then_not_space in E. congruence.
Qed.

Lemma match_at_email b s :
  match_at email_re b s = if email_at s then Some (lead not_space s) else None.
Proof.
  unfold match_at, email_re.
  change (m (seqs [plus S_; chr (ch "@"); plus S_]) (fun _ t => Some t) b s)
    with (m S_ (m (Star S_) (m (seqs [chr (ch "@"); plus S_]) fin)) b s).
  rewrite S_not_space at 1 2.
  destruct s as [|c t]; [reflexivity|].
  change (m (Cls not_space)
            (m (Star (Cls not_space)) (m (seqs [chr (ch "@"); plus S_]) fin)) b (c :: t))
    with (if not_space c
          then m (Star (Cls not_space)) (m (seqs [chr (ch "@"); plus S_]) fin) (Some c) t
          else None).
  cbn [email_at].
  destruct (not_space c) eqn:Ec; [|reflexivity]. cbn [andb].
  rewrite m_star_cls, (star_then_at b).
  destruct (inner_at t); [|reflexivity].
  rewrite (lead_not_space_cons c t Ec). f_equal.
  rewrite length_skipn. cbn [length]. pose proof (lead_le_length not_space t). lia.
Qed.

Lemma sub_email :
  forall s b,
    sub_from email_re [] b s = strip_emails false s
    /\ flat_map (emit []) (scan email_re (lead not_space s) b s) = strip_emails true s.
Proof.
  unfold sub_from. induction s as [|c t IH]; intros b.
  - cbn [lead scan]. rewrite match_at_email. split; reflexivity.
  - assert (H0 : flat_map (emit []) (scan email_re 0 b (c :: t))
                 = strip_emails false (c :: t)).
    { cbn [scan]. rewrite match_at_email. cbn [strip_emails].
      destruct (is_space c) eqn:Ec.
      - cbn [email_at]. unfold not_space. rewrite Ec. cbn [negb andb flat_map emit app].
        f_equal. apply IH.
      - destruct (email_at (c :: t)).
        + rewrite lead_not_space_cons by (unfold not_space; rewrite Ec; reflexivity).
          cbn [flat_map emit app]. apply IH.
        + cbn [flat_map emit app]. f_equal. apply IH. }
    split; [exact H0|].
    cbn [strip_emails]. destruct (is_space c) eqn:Ec.
    + cbn [lead]. unfold not_space at 1. rewrite Ec. cbn [negb].
      rewrite H0. cbn [strip_emails]. rewrite Ec. reflexivity.
    + rewrite lead_not_space_cons by (unfold not_space; rewrite Ec; reflexivity).
      cbn [scan]. apply IH.
Qed.

Lemma inner_at_tail c t :
  inner_at (c :: t) = false -> not_space c = true ->
  at_sign_then (c :: t) = false /\ inner_at t = false.
Proof.
  cbn [inner_at]. intros H Hc. rewrite Hc in H. cbn [andb] in H.
  apply orb_false_elim in H. exact H.
Qed.

Lemma at_sign_then_kept c t :
  at_sign_then (c :: t) = false -> at_sign_then (c :: strip_emails false t) = false.
Proof.
  intros H. destruct (N.eqb_spec (ch "@") c) as [Hc|Hc].
  - destruct t as [|x t]; [reflexivity|].
    cbn [at_sign_then] in H. rewrite (proj2 (N.eqb_eq _ _) Hc) in H. cbn [andb] in H.
    unfold not_space in H. destruct (is_space x) eqn:Ex; [|discriminate].
    cbn [strip_emails]. rewrite Ex. cbn [at_sign_then]. unfold not_space.
    rewrite Ex. apply andb_false_r.
  - apply N.eqb_neq in Hc.
    destruct (strip_emails false t) as [|y r]; [reflexivity|].
    cbn [at_sign_then]. rewrite Hc. reflexivity.
Qed.

Lemma strip_emails_no_inner_at :
  forall s,
    no_inner_at false (strip_emails false s) = true
    /\ (inner_at s = false -> no_inner_at true (strip_emails false s) = true)
    /\ no_inner_at false (strip_emails true s) = true.
Proof.
  induction s as [|c t [IH1 [IH2 IH3]]]; [repeat split|].
  cbn [strip_emails]. destruct (is_space c) eqn:Ec.
  - assert (Hns : not_space c = false) by (unfold not_space; rewrite Ec; reflexivity).
    assert (Hat : forall x, at_sign_then (c :: x) = false).
    { intros x. destruct (at_sign_then (c :: x)) eqn:E; [|reflexivity].
      apply at_sign_then_not_space in E. congruence. }
    cbn [no_inner_at]. rewrite Hns, Hat, IH1. repeat split.
  - assert (Hns : not_space c = true) by (unfold not_space; rewrite Ec; reflexivity).
    split; [|split; [|exact IH3]].
    + destruct (email_at (c :: t)) eqn:Ee; [exact IH3|].
      cbn [no_inner_at andb negb]. rewrite Hns. apply IH2.
      cbn [email_at] in Ee. rewrite Hns in Ee. exact Ee.
    + intros Hin. destruct (inner_at_tail c t Hin Hns) as [Hat Ht].
      cbn [email_at]. rewrite Hns, Ht. cbn [andb no_inner_at].
      rewrite (at_sign_then_kept c t Hat), Hns, (IH2 Ht). reflexivity.
Qed.

Lemma no_inner_at_spec :
  forall s prev, no_inner_at prev s = true ->
    forall l1 a c l2, s = l1 ++ a :: ch "@" :: c :: l2 ->
                      is_space a = true \/ is_space c = true.
Proof.
  induction s as [|x s IH]; intros prev H l1 a c l2 E.
  - destruct l1; discriminate.
  - cbn [no_inner_at] in H. apply andb_prop in H as [_ H].
    destruct l1 as [|y l1]; cbn [app] in E.
    + injection E as -> ->. cbn [no_inner_at at_sign_then] in H.
      apply andb_prop in H as [H _]. rewrite N.eqb_refl in H. cbn [andb] in H.
      unfold not_space in H.
      destruct (is_space a); [left; reflexivity|]. right.
      destruct (is_space c); [reflexivity | discriminate].
    + injection E as _ E. exact (IH _ H l1 a c l2 E).
Qed.

(** X14. The e-mail filter removes, whole, every token (maximal run of
    characters that are not white space) that has an [@] with a character of
    the token on each side, and keeps every other character; so in its
    result no [@] stands between two characters that are not white space. *)
Theorem email_filter_tokens (text : str) :
  re_sub email_re [] text = strip_emails false text
  /\ (forall l1 a c l2,
        re_sub email_re [] text = l1 ++ a :: ch "@" :: c :: l2 ->
        is_space a = true \/ is_space c = true).
Proof.
  unfold re_sub. destruct (sub_email text None) as [-> _].
  split; [reflexivity|].
  destruct (strip_emails_no_inner_at text) as [H _].
  exact (no_inner_at_spec _ _ H).
Qed.

End Emails.
